(** * POSCO dashboard: indicator engine and signal scorer

    A shallow embedding of the indicator-and-scoring pipeline of
    [posco_dashboard.py] (lines 229-270, 273-408 and 649-652).

    Numbers.  The script computes on pandas/NumPy [float64] columns.  A value
    is modelled as [float64]: not-a-number, the two infinities, or a finite
    number carried as an exact rational.  Special values follow IEEE-754
    (x/0 is an infinity, 0/0 and inf-inf are NaN, comparisons with NaN are
    false); finite arithmetic is exact, so rounding, overflow and the sign of
    zero are outside the model.  Finite results are compared with [feq]
    (equality of rationals).

    Rounding.  Where the script's result depends on rounding, the statement
    is put so that it holds of the rounded computation as well: blended
    probabilities are compared up to [tolerance], and facts about signs and
    missing values replace equalities that rounding or overflow would break.
    The blend of lines 373-406 is given a second time on binary64 numbers
    (module [Binary64]), which shows what rounding does to it.

    Library calls.  pandas and NumPy operations ([diff], [where], [rolling],
    [ewm], [cumsum], [fillna], [clip], [tail], [iloc], [np.sign], [np.mean])
    are modelled by their documented behaviour on a float64 Series with the
    arguments the script passes. *)

From Stdlib Require Import String.
From Stdlib Require Import List ZArith QArith Qminmax Lqa Lia Bool.
From Stdlib Require PrimFloat Uint63.
Import ListNotations.

Local Open Scope Q_scope.

(** ** float64 values *)

Inductive float64 : Type :=
| NaN
| PInf
| NInf
| Fin (q : Q).

Definition feq (x y : float64) : Prop :=
  match x, y with
  | NaN, NaN => True
  | PInf, PInf => True
  | NInf, NInf => True
  | Fin a, Fin b => a == b
  | _, _ => False
  end.

Infix "=f=" := feq (at level 70, no associativity).

Definition notna (x : float64) : bool :=
  match x with NaN => false | _ => true end.

Definition is_finite (x : float64) : Prop :=
  match x with Fin _ => True | _ => False end.

Definition fneg (x : float64) : float64 :=
  match x with
  | NaN => NaN
  | PInf => NInf
  | NInf => PInf
  | Fin a => Fin (- a)
  end.

Definition fadd (x y : float64) : float64 :=
  match x, y with
  | NaN, _ | _, NaN => NaN
  | PInf, NInf | NInf, PInf => NaN
  | PInf, _ | _, PInf => PInf
  | NInf, _ | _, NInf => NInf
  | Fin a, Fin b => Fin (a + b)
  end.

Definition fsub (x y : float64) : float64 := fadd x (fneg y).

(** An infinity scaled by a finite factor: the sign of the factor decides,
    and a zero factor gives NaN. *)
Definition inf_times (pos : bool) (q : Q) : float64 :=
  match q ?= 0 with
  | Eq => NaN
  | Gt => if pos then PInf else NInf
  | Lt => if pos then NInf else PInf
  end.

Definition fmul (x y : float64) : float64 :=
  match x, y with
  | NaN, _ | _, NaN => NaN
  | PInf, PInf | NInf, NInf => PInf
  | PInf, NInf | NInf, PInf => NInf
  | PInf, Fin b => inf_times true b
  | NInf, Fin b => inf_times false b
  | Fin a, PInf => inf_times true a
  | Fin a, NInf => inf_times false a
  | Fin a, Fin b => Fin (a * b)
  end.

(** Division.  A finite nonzero number over zero is the infinity of the
    numerator's sign, zero over zero is NaN, finite over infinite is zero. *)
Definition fdiv (x y : float64) : float64 :=
  match x, y with
  | NaN, _ | _, NaN => NaN
  | PInf, Fin b => match b ?= 0 with Lt => NInf | _ => PInf end
  | NInf, Fin b => match b ?= 0 with Lt => PInf | _ => NInf end
  | _, PInf | _, NInf =>
      match x with Fin _ => Fin 0 | _ => NaN end
  | Fin a, Fin b =>
      match b ?= 0 with
      | Eq => match a ?= 0 with Eq => NaN | Gt => PInf | Lt => NInf end
      | _ => Fin (a / b)
      end
  end.

(** [x < y]; false as soon as one side is NaN. *)
Definition flt (x y : float64) : bool :=
  match x, y with
  | NaN, _ | _, NaN => false
  | _, NInf => false
  | NInf, _ => true
  | PInf, _ => false
  | Fin _, PInf => true
  | Fin a, Fin b => match a ?= b with Lt => true | _ => false end
  end.

Definition fgt (x y : float64) : bool := flt y x.

(** [x != y] of IEEE: true when one side is NaN. *)
Definition fne (x y : float64) : bool :=
  match x, y with
  | NaN, _ | _, NaN => true
  | PInf, PInf | NInf, NInf => false
  | Fin a, Fin b => match a ?= b with Eq => false | _ => true end
  | _, _ => true
  end.

(** [np.sign]. *)
Definition fsign (x : float64) : float64 :=
  match x with
  | NaN => NaN
  | PInf => Fin 1
  | NInf => Fin (-1)
  | Fin a => match a ?= 0 with Eq => Fin 0 | Gt => Fin 1 | Lt => Fin (-1) end
  end.

(** Python's built-in [min(a, b)] and [max(a, b)] on two arguments: the
    first argument is kept unless the second compares strictly below
    (above) it. *)
Definition py_min (a b : float64) : float64 := if flt b a then b else a.
Definition py_max (a b : float64) : float64 := if fgt b a then b else a.

(** ** Series *)

Definition Series := list float64.

(** A left-to-right pass that carries a state and emits one value per
    entry. *)
Fixpoint scan {A S B : Type} (step : S -> A -> S * B) (s : S) (xs : list A)
  : list B :=
  match xs with
  | [] => []
  | x :: r => let (s', y) := step s x in y :: scan step s' r
  end.

(** [Series.diff()]: first entry NaN, then [x[i] - x[i-1]]. *)
Definition diff_step (prev : float64) (x : float64) : float64 * float64 :=
  (x, fsub x prev).

Definition diff (xs : Series) : Series :=
  match xs with
  | [] => []
  | x :: r => NaN :: scan diff_step x r
  end.

(** [s.where(cond(s), other)]: keep entries that satisfy the condition. *)
Definition where_ (cond : float64 -> bool) (other : float64) (xs : Series)
  : Series :=
  map (fun x => if cond x then x else other) xs.

Definition fillna (v : float64) (xs : Series) : Series :=
  map (fun x => if notna x then x else v) xs.

(** [Series.clip(lower, upper)]; NaN stays NaN. *)
Definition clip1 (lo hi x : float64) : float64 :=
  if flt x lo then lo else if fgt x hi then hi else x.

Definition clip (lo hi : float64) (xs : Series) : Series := map (clip1 lo hi) xs.

(** Element-wise binary operation of two columns of one frame. *)
Fixpoint zip_with (f : float64 -> float64 -> float64) (xs ys : Series)
  : Series :=
  match xs, ys with
  | x :: xs', y :: ys' => f x y :: zip_with f xs' ys'
  | _, _ => []
  end.

(** [Series.cumsum()] (skipna): a NaN entry stays NaN and is left out of the
    running sum. *)
Definition cumsum_step (acc : float64) (x : float64) : float64 * float64 :=
  if notna x then (fadd acc x, fadd acc x) else (acc, NaN).

Definition cumsum (xs : Series) : Series := scan cumsum_step (Fin 0) xs.

(** *** Rolling windows

    [s.rolling(window=w)] with the default [min_periods = w]: a bar has a
    value once [w] bars are available and none of them is missing.  pandas
    turns infinities into NaN before it aggregates a window. *)

Fixpoint finite_values (xs : Series) : option (list Q) :=
  match xs with
  | [] => Some []
  | Fin q :: r =>
      match finite_values r with Some qs => Some (q :: qs) | None => None end
  | _ :: _ => None
  end.

(** The state of the pass is the history, most recent bar first. *)
Definition rolling_step (w : nat) (agg : list Q -> float64)
  (hist : Series) (x : float64) : Series * float64 :=
  let hist' := x :: hist in
  (hist',
   if (w <=? length hist')%nat then
     match finite_values (rev (firstn w hist')) with
     | Some qs => agg qs
     | None => NaN
     end
   else NaN).

Definition rolling (w : nat) (agg : list Q -> float64) (xs : Series) : Series :=
  scan (rolling_step w agg) [] xs.

Definition Qsum (qs : list Q) : Q := fold_left Qplus qs 0.

Definition Qlen (qs : list Q) : Q := inject_Z (Z.of_nat (length qs)).

Definition agg_mean (qs : list Q) : float64 :=
  match qs with
  | [] => NaN
  | _ => Fin (Qsum qs / Qlen qs)
  end.

Definition agg_min (qs : list Q) : float64 :=
  match qs with
  | [] => NaN
  | q :: r => Fin (fold_left Qmin r q)
  end.

Definition agg_max (qs : list Q) : float64 :=
  match qs with
  | [] => NaN
  | q :: r => Fin (fold_left Qmax r q)
  end.

(** *** Exponentially weighted mean

    [s.ewm(span=span, adjust=False).mean()], following pandas' pass over the
    values: infinities are turned into NaN first, as for a rolling window;
    [weighted] is the running mean, [old_wt] the weight of the past, [nobs]
    the number of observations seen ([min_periods] is 0, so one observation
    is enough).  A missing value leaves [weighted] as it is and lets
    [old_wt] decay.  The weight of a new observation is [alpha], except
    that for a centre of mass of 1 (span 3) pandas takes [1 - old_wt]; the
    two differ only after a gap.  pandas rejects a span below 1 with a
    [ValueError]; the script passes 12, 26 and 9, and the statements on
    this pass take a span of at least 1. *)

Definition ewm_com (span : Z) : Q := (inject_Z span - 1) / 2.

Definition ewm_alpha (span : Z) : Q := 1 / (1 + ewm_com span).

Definition inf_to_nan (x : float64) : float64 :=
  match x with
  | PInf | NInf => NaN
  | _ => x
  end.

Record ewm_state : Type := mk_ewm {
  weighted : float64;
  old_wt : Q;
  nobs : nat
}.

Definition ewm_out (st : ewm_state) : float64 :=
  if (1 <=? nobs st)%nat then weighted st else NaN.

Definition ewm_step (com alpha : Q) (st : ewm_state) (cur : float64)
  : ewm_state * float64 :=
  let is_observation := notna cur in
  let nobs' := (nobs st + (if is_observation then 1 else 0))%nat in
  let st' :=
    if notna (weighted st) then
      let old_wt1 := old_wt st * (1 - alpha) in
      if is_observation then
        let w' :=
          if fne (weighted st) cur then
            let new_wt := if Qeq_bool com 1 then 1 - old_wt1 else alpha in
            fdiv (fadd (fmul (Fin old_wt1) (weighted st)) (fmul (Fin new_wt) cur))
                 (Fin (old_wt1 + new_wt))
          else weighted st in
        mk_ewm w' 1 nobs'
      else mk_ewm (weighted st) old_wt1 nobs'
    else if is_observation then mk_ewm cur (old_wt st) nobs'
    else mk_ewm (weighted st) (old_wt st) nobs' in
  (st', ewm_out st').

(** The pass over values that hold no infinity. *)
Definition ewm_pass (span : Z) (xs : Series) : Series :=
  match xs with
  | [] => []
  | x :: r =>
      let st := mk_ewm x 1 (if notna x then 1 else 0) in
      ewm_out st :: scan (ewm_step (ewm_com span) (ewm_alpha span)) st r
  end.

Definition ewm_mean (span : Z) (xs : Series) : Series :=
  ewm_pass span (map inf_to_nan xs).

(** ** Indicator engine (lines 229-270 and 649-652) *)

(** One row of the downloaded history.  The frame is taken after
    [df.sort_index()], so rows are in date order. *)
Record PriceBar : Type := mkBar {
  Open : float64;
  High : float64;
  Low : float64;
  Close : float64;
  Volume : float64
}.

Definition PriceSeries := list PriceBar.

(** [calculate_rsi(prices, period)]. *)
Definition rsi_gain (period : nat) (prices : Series) : Series :=
  rolling period agg_mean
    (where_ (fun d => fgt d (Fin 0)) (Fin 0) (diff prices)).

Definition rsi_loss (period : nat) (prices : Series) : Series :=
  rolling period agg_mean
    (map fneg (where_ (fun d => flt d (Fin 0)) (Fin 0) (diff prices))).

Definition calculate_rsi (prices : Series) (period : nat) : Series :=
  let gain := rsi_gain period prices in
  let loss := rsi_loss period prices in
  let rs := zip_with fdiv gain loss in
  map (fun r => fsub (Fin 100) (fdiv (Fin 100) (fadd (Fin 1) r))) rs.

(** [calculate_macd(prices, fast, slow, signal)]. *)
Definition calculate_macd (prices : Series) (fast slow signal : Z)
  : Series * Series * Series :=
  let ema_fast := ewm_mean fast prices in
  let ema_slow := ewm_mean slow prices in
  let macd_line := zip_with fsub ema_fast ema_slow in
  let signal_line := ewm_mean signal macd_line in
  let histogram := zip_with fsub macd_line signal_line in
  (macd_line, signal_line, histogram).

(** [calculate_stochastic(high, low, close, k_period, d_period)]. *)
Definition calculate_stochastic (high low close : Series)
  (k_period d_period : nat) : Series * Series :=
  let lowest_low := rolling k_period agg_min low in
  let highest_high := rolling k_period agg_max high in
  let k_percent :=
    map (fmul (Fin 100))
      (zip_with fdiv (zip_with fsub close lowest_low)
                     (zip_with fsub highest_high lowest_low)) in
  let d_percent := rolling d_period agg_mean k_percent in
  (k_percent, d_percent).

(** Line 270: [(np.sign(Close.diff()) * Volume).fillna(0).cumsum()]. *)
Definition obv (close volume : Series) : Series :=
  cumsum (fillna (Fin 0) (zip_with fmul (map fsign (diff close)) volume)).

Record Row : Type := mkRow {
  bar : PriceBar;
  MA_5 : float64;
  MA_20 : float64;
  MA_60 : float64;
  MA_120 : float64;
  RSI : float64;
  MACD : float64;
  MACD_Signal : float64;
  MACD_Hist : float64;
  Stoch_K : float64;
  Stoch_D : float64;
  OBV : float64;
  BB_Middle : float64;
  BB_Std : float64;
  BB_Upper : float64;
  BB_Lower : float64
}.

Definition IndicatorFrame := list Row.

Definition at_ (xs : Series) (i : nat) : float64 := nth i xs NaN.

Fixpoint imap {A B : Type} (f : nat -> A -> B) (i : nat) (l : list A)
  : list B :=
  match l with
  | [] => []
  | x :: r => f i x :: imap f (S i) r
  end.

Section Engine.

(** The square root taken by [rolling(...).std()]; the rationals have
    none, so the engine is stated for any function in its place. *)
Variable sqrtQ : Q -> Q.

(** Sample standard deviation (pandas' default [ddof = 1]). *)
Definition agg_std (qs : list Q) : float64 :=
  match qs with
  | [] | [_] => NaN
  | _ =>
      let m := Qsum qs / Qlen qs in
      Fin (sqrtQ (Qsum (map (fun x => (x - m) * (x - m)) qs) / (Qlen qs - 1)))
  end.

Definition col_MA (w : nat) (bars : PriceSeries) : Series :=
  rolling w agg_mean (map Close bars).

Definition col_RSI (bars : PriceSeries) : Series :=
  calculate_rsi (map Close bars) 14.

Definition col_MACD (bars : PriceSeries) : Series :=
  fst (fst (calculate_macd (map Close bars) 12 26 9)).

Definition col_MACD_Signal (bars : PriceSeries) : Series :=
  snd (fst (calculate_macd (map Close bars) 12 26 9)).

Definition col_MACD_Hist (bars : PriceSeries) : Series :=
  snd (calculate_macd (map Close bars) 12 26 9).

Definition col_Stoch_K (bars : PriceSeries) : Series :=
  fst (calculate_stochastic (map High bars) (map Low bars) (map Close bars)
         14 3).

Definition col_Stoch_D (bars : PriceSeries) : Series :=
  snd (calculate_stochastic (map High bars) (map Low bars) (map Close bars)
         14 3).

Definition col_OBV (bars : PriceSeries) : Series :=
  obv (map Close bars) (map Volume bars).

Definition col_BB_Middle (bars : PriceSeries) : Series :=
  rolling 20 agg_mean (map Close bars).

Definition col_BB_Std (bars : PriceSeries) : Series :=
  rolling 20 agg_std (map Close bars).

Definition col_BB_Upper (bars : PriceSeries) : Series :=
  zip_with fadd (col_BB_Middle bars)
    (map (fun s => fmul s (Fin 2)) (col_BB_Std bars)).

Definition col_BB_Lower (bars : PriceSeries) : Series :=
  zip_with fsub (col_BB_Middle bars)
    (map (fun s => fmul s (Fin 2)) (col_BB_Std bars)).

(** The frame with every derived column attached, row by row. *)
Definition indicator_frame (bars : PriceSeries) : IndicatorFrame :=
  imap (fun i b =>
          mkRow b
            (at_ (col_MA 5 bars) i) (at_ (col_MA 20 bars) i)
            (at_ (col_MA 60 bars) i) (at_ (col_MA 120 bars) i)
            (at_ (col_RSI bars) i)
            (at_ (col_MACD bars) i) (at_ (col_MACD_Signal bars) i)
            (at_ (col_MACD_Hist bars) i)
            (at_ (col_Stoch_K bars) i) (at_ (col_Stoch_D bars) i)
            (at_ (col_OBV bars) i)
            (at_ (col_BB_Middle bars) i) (at_ (col_BB_Std bars) i)
            (at_ (col_BB_Upper bars) i) (at_ (col_BB_Lower bars) i))
       0 bars.

End Engine.

(** ** Signal scorer: [calculate_probability] (lines 273-408) *)

(** Indexing past the end raises [IndexError]; the scorer returns [None]
    where the script raises. *)
Definition bind {A B : Type} (m : option A) (k : A -> option B) : option B :=
  match m with
  | Some a => k a
  | None => None
  end.

Notation "x <- m ;; k" := (bind m (fun x => k))
  (at level 61, m at next level, right associativity).

(** [df.tail(n)]: the last [n] rows, nothing for [n = 0], and all but the
    first [-n] rows for a negative [n]. *)
Definition tail {A : Type} (n : Z) (l : list A) : list A :=
  if (n =? 0)%Z then []
  else if (0 <? n)%Z then skipn (length l - Z.to_nat n) l
  else skipn (Z.to_nat (- n)) l.

(** [s.iloc[i]], negative positions counted from the end. *)
Definition iloc {A : Type} (l : list A) (i : Z) : option A :=
  if (0 <=? i)%Z then nth_error l (Z.to_nat i)
  else if (- i <=? Z.of_nat (length l))%Z
       then nth_error l (length l - Z.to_nat (- i))
       else None.

Definition Signals := list (String.string * Z).

Fixpoint lookup (k : String.string) (d : Signals) : option Z :=
  match d with
  | [] => None
  | (k', v) :: r => if String.eqb k k' then Some v else lookup k r
  end.

(** 1. RSI signal. *)
Definition rsi_signal (latest_rsi : float64) : Z :=
  if notna latest_rsi then
    if flt latest_rsi (Fin 30) then 80
    else if flt latest_rsi (Fin 40) then 65
    else if flt latest_rsi (Fin 50) then 55
    else if flt latest_rsi (Fin 60) then 45
    else if flt latest_rsi (Fin 70) then 35
    else 20
  else 50.

(** 2. MACD signal. *)
Definition macd_signal (latest_macd latest_signal latest_hist prev_hist : float64)
  : Z :=
  if notna latest_macd && notna latest_signal then
    if fgt latest_macd latest_signal && fgt latest_hist prev_hist then 75
    else if fgt latest_macd latest_signal then 60
    else if flt latest_macd latest_signal && flt latest_hist prev_hist then 25
    else if flt latest_macd latest_signal then 40
    else 50
  else 50.

(** 3. Stochastic signal. *)
Definition stoch_signal (latest_stoch_k latest_stoch_d : float64) : Z :=
  if notna latest_stoch_k && notna latest_stoch_d then
    if flt latest_stoch_k (Fin 20) && fgt latest_stoch_k latest_stoch_d then 75
    else if flt latest_stoch_k (Fin 30) then 60
    else if fgt latest_stoch_k (Fin 80) && flt latest_stoch_k latest_stoch_d
         then 25
    else if fgt latest_stoch_k (Fin 70) then 40
    else 50
  else 50.

(** 4. Moving-average signal. *)
Definition ma_signal (latest_price ma5 ma20 : float64) : Z :=
  if notna ma5 && notna ma20 then
    if fgt latest_price ma5 && fgt ma5 ma20 then 70
    else if fgt latest_price ma5 then 60
    else if flt latest_price ma5 && flt ma5 ma20 then 30
    else if flt latest_price ma5 then 40
    else 50
  else 50.

(** 5. OBV signal, from the two trends. *)
Definition obv_signal (obv_trend price_trend : float64) : Z :=
  if fgt obv_trend (Fin 0) && fgt price_trend (Fin 0) then 70
  else if flt obv_trend (Fin 0) && flt price_trend (Fin 0) then 30
  else if fgt obv_trend (Fin 0) && flt price_trend (Fin 0) then 45
  else 55.

(** [Series.mean()]: missing values are skipped; NaN when nothing is left. *)
Definition series_mean (xs : Series) : float64 :=
  let obs := filter notna xs in
  match obs with
  | [] => NaN
  | _ => fdiv (fold_left fadd obs (Fin 0))
              (Fin (inject_Z (Z.of_nat (length obs))))
  end.

(** [np.mean] of a non-empty array. *)
Definition np_mean (xs : Series) : float64 :=
  fdiv (fold_left fadd xs (Fin 0)) (Fin (inject_Z (Z.of_nat (length xs)))).

(** Line 374-376: the clipped volume ratios of the last five bars. *)
Definition volume_weights_of (recent_df : IndicatorFrame) : Series :=
  let volume := map (fun r => Volume (bar r)) recent_df in
  let recent_volumes := tail 5 volume in
  let avg_volume := series_mean volume in
  clip (Fin 0.5) (Fin 2.0)
    (fillna (Fin 1.0) (map (fun v => fdiv v avg_volume) recent_volumes)).

Definition indicator_weights : list (String.string * Q) :=
  [ ("RSI"%string, 0.25); ("MACD"%string, 0.25); ("Stochastic"%string, 0.15);
    ("MA"%string, 0.20); ("OBV"%string, 0.15) ].

(** One turn of the loop of lines 391-397 on
    [(weighted_scores, total_weight)]. *)
Definition weigh (signals : Signals) (volume_weights : Series)
  (acc : Series * float64) (entry : String.string * Q) : Series * float64 :=
  let (indicator, base_weight) := entry in
  match lookup indicator signals with
  | Some score =>
      let volume_weight :=
        if (0 <? length volume_weights)%nat then np_mean volume_weights
        else Fin 1.0 in
      let adjusted_weight := fmul (Fin base_weight) volume_weight in
      (fst acc ++ [fmul (Fin (inject_Z score)) adjusted_weight],
       fadd (snd acc) adjusted_weight)
  | None => acc
  end.

(** Lines 387-402: the volume-weighted average of the sub-scores. *)
Definition final_score_of (signals : Signals) (volume_weights : Series)
  : float64 :=
  let '(weighted_scores, total_weight) :=
    fold_left (weigh signals volume_weights) indicator_weights ([], Fin 0) in
  if fgt total_weight (Fin 0)
  then fdiv (fold_left fadd weighted_scores (Fin 0)) total_weight
  else Fin 50.

(** Lines 275-371: the trailing window and the five sub-scores. *)
Definition recent_window (df : IndicatorFrame) (lookback_period : Z)
  : IndicatorFrame :=
  let lookback_period :=
    if (Z.of_nat (length df) <? lookback_period)%Z then Z.of_nat (length df)
    else lookback_period in
  tail lookback_period df.

Definition signals_of (recent_df : IndicatorFrame) : option Signals :=
  latest_rsi <- iloc (map RSI recent_df) (-1) ;;
  latest_macd <- iloc (map MACD recent_df) (-1) ;;
  latest_signal <- iloc (map MACD_Signal recent_df) (-1) ;;
  latest_hist <- iloc (map MACD_Hist recent_df) (-1) ;;
  prev_hist <- (if (1 <? length recent_df)%nat
                then iloc (map MACD_Hist recent_df) (-2)
                else Some latest_hist) ;;
  latest_stoch_k <- iloc (map Stoch_K recent_df) (-1) ;;
  latest_stoch_d <- iloc (map Stoch_D recent_df) (-1) ;;
  latest_price <- iloc (map (fun r => Close (bar r)) recent_df) (-1) ;;
  ma5 <- iloc (map MA_5 recent_df) (-1) ;;
  ma20 <- iloc (map MA_20 recent_df) (-1) ;;
  obv_score <-
    (if (1 <? length recent_df)%nat then
       let back := (- Z.min 5 (Z.of_nat (length recent_df) - 1))%Z in
       obv_last <- iloc (map OBV recent_df) (-1) ;;
       obv_back <- iloc (map OBV recent_df) back ;;
       price_last <- iloc (map (fun r => Close (bar r)) recent_df) (-1) ;;
       price_back <- iloc (map (fun r => Close (bar r)) recent_df) back ;;
       Some (obv_signal (fsub obv_last obv_back) (fsub price_last price_back))
     else Some 50%Z) ;;
  Some [ ("RSI"%string, rsi_signal latest_rsi);
         ("MACD"%string,
          macd_signal latest_macd latest_signal latest_hist prev_hist);
         ("Stochastic"%string, stoch_signal latest_stoch_k latest_stoch_d);
         ("MA"%string, ma_signal latest_price ma5 ma20);
         ("OBV"%string, obv_score) ].

(** The score before the final clamp. *)
Definition final_score (df : IndicatorFrame) (lookback_period : Z)
  : option float64 :=
  let recent_df := recent_window df lookback_period in
  signals <- signals_of recent_df ;;
  Some (final_score_of signals (volume_weights_of recent_df)).

Definition calculate_probability (df : IndicatorFrame) (lookback_period : Z)
  : option (float64 * float64 * Signals) :=
  let recent_df := recent_window df lookback_period in
  signals <- signals_of recent_df ;;
  let final_score := final_score_of signals (volume_weights_of recent_df) in
  let up_probability := py_max (Fin 0) (py_min (Fin 100) final_score) in
  let down_probability := fsub (Fin 100) up_probability in
  Some (up_probability, down_probability, signals).

(** The same scorer with the volume weighting left out: the final score is
    the sum of sub-score times base weight.  This is the computation the
    scorer is compared with, not code of the script. *)
Definition simplified_score (signals : Signals) : float64 :=
  fold_left
    (fun acc (entry : String.string * Q) =>
       let (indicator, base_weight) := entry in
       match lookup indicator signals with
       | Some score => fadd acc (fmul (Fin (inject_Z score)) (Fin base_weight))
       | None => acc
       end)
    indicator_weights (Fin 0).

Definition calculate_probability_simplified (df : IndicatorFrame)
  (lookback_period : Z) : option (float64 * float64 * Signals) :=
  let recent_df := recent_window df lookback_period in
  signals <- signals_of recent_df ;;
  let final_score := simplified_score signals in
  let up_probability := py_max (Fin 0) (py_min (Fin 100) final_score) in
  let down_probability := fsub (Fin 100) up_probability in
  Some (up_probability, down_probability, signals).

(** ** The blend in binary64 (lines 373-406)

    The same lines on the kernel's binary64 numbers, with IEEE-754
    round-to-nearest at every operation, in the order the script performs
    them.  The sub-scores come from comparisons, and from the sign of a
    difference, which rounding does not change, so [signals_of] is used as
    it is. *)

Module Binary64.

Definition of_Z (z : Z) : PrimFloat.float :=
  match z with
  | Z0 => PrimFloat.zero
  | Zpos _ => PrimFloat.of_uint63 (Uint63.of_Z z)
  | Zneg p => PrimFloat.opp (PrimFloat.of_uint63 (Uint63.of_Z (Zpos p)))
  end.

(** The double nearest to a rational of moderate numerator and denominator
    (below 2^53), which is how a decimal literal of the script is read. *)
Definition of_Q (q : Q) : PrimFloat.float :=
  PrimFloat.div (of_Z (Qnum q)) (of_Z (Zpos (Qden q))).

Definition of_float64 (x : float64) : PrimFloat.float :=
  match x with
  | NaN => PrimFloat.nan
  | PInf => PrimFloat.infinity
  | NInf => PrimFloat.neg_infinity
  | Fin q => of_Q q
  end.

Definition notna (x : PrimFloat.float) : bool := negb (PrimFloat.is_nan x).

(** A sum taken from left to right, as [sum], [+=] and the summation of
    NumPy on a handful of values do. *)
Definition sum (xs : list PrimFloat.float) : PrimFloat.float :=
  fold_left PrimFloat.add xs PrimFloat.zero.

Definition series_mean (xs : list PrimFloat.float) : PrimFloat.float :=
  let obs := filter notna xs in
  PrimFloat.div (sum obs) (of_Z (Z.of_nat (length obs))).

Definition np_mean (xs : list PrimFloat.float) : PrimFloat.float :=
  PrimFloat.div (sum xs) (of_Z (Z.of_nat (length xs))).

Definition clip1 (lo hi x : PrimFloat.float) : PrimFloat.float :=
  if PrimFloat.ltb x lo then lo else if PrimFloat.ltb hi x then hi else x.

Definition volume_weights_of (recent_df : IndicatorFrame)
  : list PrimFloat.float :=
  let volume := map (fun r => of_float64 (Volume (bar r))) recent_df in
  let recent_volumes := tail 5 volume in
  let avg_volume := series_mean volume in
  map (fun v =>
         let ratio := PrimFloat.div v avg_volume in
         clip1 (of_Q 0.5) (of_Q 2.0) (if notna ratio then ratio else of_Q 1.0))
      recent_volumes.

Definition weigh (signals : Signals) (volume_weights : list PrimFloat.float)
  (acc : list PrimFloat.float * PrimFloat.float) (entry : String.string * Q)
  : list PrimFloat.float * PrimFloat.float :=
  let (indicator, base_weight) := entry in
  match lookup indicator signals with
  | Some score =>
      let volume_weight :=
        if (0 <? length volume_weights)%nat then np_mean volume_weights
        else of_Q 1.0 in
      let adjusted_weight := PrimFloat.mul (of_Q base_weight) volume_weight in
      (fst acc ++ [PrimFloat.mul (of_Z score) adjusted_weight],
       PrimFloat.add (snd acc) adjusted_weight)
  | None => acc
  end.

Definition final_score_of (signals : Signals)
  (volume_weights : list PrimFloat.float) : PrimFloat.float :=
  let '(weighted_scores, total_weight) :=
    fold_left (weigh signals volume_weights) indicator_weights
      ([], PrimFloat.zero) in
  if PrimFloat.ltb PrimFloat.zero total_weight
  then PrimFloat.div (sum weighted_scores) total_weight
  else of_Z 50.

Definition py_min (a b : PrimFloat.float) : PrimFloat.float :=
  if PrimFloat.ltb b a then b else a.

Definition py_max (a b : PrimFloat.float) : PrimFloat.float :=
  if PrimFloat.ltb a b then b else a.

Definition calculate_probability (df : IndicatorFrame) (lookback_period : Z)
  : option (PrimFloat.float * PrimFloat.float * Signals) :=
  let recent_df := recent_window df lookback_period in
  signals <- signals_of recent_df ;;
  let final_score := final_score_of signals (volume_weights_of recent_df) in
  let up_probability := py_max (of_Z 0) (py_min (of_Z 100) final_score) in
  let down_probability := PrimFloat.sub (of_Z 100) up_probability in
  Some (up_probability, down_probability, signals).

(** The sum of sub-score times base weight, without the volume weight. *)
Definition simplified_score (signals : Signals) : PrimFloat.float :=
  fold_left
    (fun acc (entry : String.string * Q) =>
       let (indicator, base_weight) := entry in
       match lookup indicator signals with
       | Some score =>
           PrimFloat.add acc (PrimFloat.mul (of_Z score) (of_Q base_weight))
       | None => acc
       end)
    indicator_weights PrimFloat.zero.

Definition calculate_probability_simplified (df : IndicatorFrame)
  (lookback_period : Z)
  : option (PrimFloat.float * PrimFloat.float * Signals) :=
  let recent_df := recent_window df lookback_period in
  signals <- signals_of recent_df ;;
  let final_score := simplified_score signals in
  let up_probability := py_max (of_Z 0) (py_min (of_Z 100) final_score) in
  let down_probability := PrimFloat.sub (of_Z 100) up_probability in
  Some (up_probability, down_probability, signals).

End Binary64.

(** ** Vocabulary of the statements *)

(** Two results of the float64 computation are taken to agree when they
    are finite and differ by no more than this. *)
Definition tolerance : Q := 1 # 1000000.

(** A finite value within [tolerance] of the rational [q]. *)
Definition close_to (x : float64) (q : Q) : Prop :=
  exists a, x = Fin a /\ q - tolerance <= a <= q + tolerance.

(** Two finite values within [tolerance] of each other. *)
Definition agree (x y : float64) : Prop :=
  exists a b, x = Fin a /\ y = Fin b /\ - tolerance <= a - b <= tolerance.

(** The values a sub-score can take. *)
Definition score_values : list Z :=
  [20; 25; 30; 35; 40; 45; 50; 55; 60; 65; 70; 75; 80]%Z.

(** Every indicator field the scorer reads is missing in the row. *)
Definition indicators_undefined (r : Row) : Prop :=
  RSI r = NaN /\ MACD r = NaN /\ MACD_Signal r = NaN /\ MACD_Hist r = NaN /\
  Stoch_K r = NaN /\ Stoch_D r = NaN /\ MA_5 r = NaN /\ MA_20 r = NaN /\
  OBV r = NaN.

(** Every derived field of the row is missing. *)
Definition all_derived_undefined (r : Row) : Prop :=
  MA_5 r = NaN /\ MA_20 r = NaN /\ MA_60 r = NaN /\ MA_120 r = NaN /\
  RSI r = NaN /\
  MACD r = NaN /\ MACD_Signal r = NaN /\ MACD_Hist r = NaN /\
  Stoch_K r = NaN /\ Stoch_D r = NaN /\ OBV r = NaN /\
  BB_Middle r = NaN /\ BB_Std r = NaN /\ BB_Upper r = NaN /\ BB_Lower r = NaN.

(** The fields that need a full window, which a short series cannot fill. *)
Definition windowed_undefined (r : Row) : Prop :=
  MA_5 r = NaN /\ MA_20 r = NaN /\ MA_60 r = NaN /\ MA_120 r = NaN /\
  RSI r = NaN /\ Stoch_K r = NaN /\ Stoch_D r = NaN /\
  BB_Middle r = NaN /\ BB_Std r = NaN /\ BB_Upper r = NaN /\ BB_Lower r = NaN.


(** The EMA recurrence between a series and its smoothed series:
    [e[0] = x[0]] and [e[t+1] = alpha * x[t+1] + (1 - alpha) * e[t]]. *)
Definition ema_recurrence (alpha : Q) (xs es : Series) : Prop :=
  length es = length xs /\
  (forall x e, nth_error xs 0 = Some x -> nth_error es 0 = Some e -> e =f= x) /\
  (forall t x e e',
      nth_error xs (S t) = Some x ->
      nth_error es t = Some e -> nth_error es (S t) = Some e' ->
      e' =f= fadd (fmul (Fin alpha) x) (fmul (Fin (1 - alpha)) e)).

(** On-balance volume as the sum it is meant to be: the first bar adds
    nothing, every later bar adds its volume signed by the move of the
    close. *)
Definition Qsign (q : Q) : Q :=
  match q ?= 0 with Eq => 0 | Gt => 1 | Lt => -1 end.

Fixpoint obv_sum_from (acc prev : Q) (closes volumes : list Q) : list Q :=
  match closes, volumes with
  | c :: cs, v :: vs =>
      let acc' := acc + Qsign (c - prev) * v in
      acc' :: obv_sum_from acc' c cs vs
  | _, _ => []
  end.

Definition obv_sum (closes volumes : list Q) : list Q :=
  match closes, volumes with
  | c :: cs, _ :: vs => 0 :: obv_sum_from 0 c cs vs
  | _, _ => []
  end.

(** Entry-wise agreement of two series. *)
Definition series_eq (xs ys : Series) : Prop := Forall2 feq xs ys.

(** ** Sample data *)

(** A square root good to six decimals, to run the engine on samples. *)
Definition sqrt_approx (q : Q) : Q :=
  inject_Z (Z.sqrt (Qnum q * 1000000000000 / Z.pos (Qden q))) / 1000000.

Definition flat_bar (p v : Q) : PriceBar :=
  mkBar (Fin p) (Fin p) (Fin p) (Fin p) (Fin v).

Definition undefined_row (close volume : Q) : Row :=
  mkRow (flat_bar close volume)
    NaN NaN NaN NaN NaN NaN NaN NaN NaN NaN NaN NaN NaN NaN NaN.

Definition sample_row (close volume rsi macd sig hist k d ma5 ma20 obv_ : Q)
  : Row :=
  mkRow (flat_bar close volume)
    (Fin ma5) (Fin ma20) NaN NaN (Fin rsi) (Fin macd) (Fin sig) (Fin hist)
    (Fin k) (Fin d) (Fin obv_) NaN NaN NaN NaN.

Definition sample_frame : IndicatorFrame :=
  [ sample_row 100 1000 45 1 0.5 0.5 40 45 99 98 0;
    sample_row 102 3000 28 1.5 0.8 0.7 15 12 100 98 3000;
    sample_row 101 500 55 1.2 1.0 0.2 85 90 101 99 2500 ].


Definition undefined_frame : IndicatorFrame :=
  [undefined_row 10 5; undefined_row 10 7].

Definition flat_series : Series := repeat (Fin 5) 14.

Definition bars_a : PriceSeries :=
  [flat_bar 100 1000; flat_bar 102 1500; flat_bar 101 900].

Definition bars_b : PriceSeries :=
  [flat_bar 100 1000; flat_bar 102 1500; flat_bar 240 10; flat_bar 3 7].

(** ** Auxiliary definitions of the proofs *)

(** A column function commutes with taking a prefix of the bars: what it
    puts in the first [n] rows is what it computes from the first [n] bars
    alone. *)
Definition prefix_stable {A B : Type} (F : list A -> list B) : Prop :=
  forall n l, firstn n (F l) = F (firstn n l).

(** The five entries of the score map, in the order the script fills it. *)
Definition five_signals (a b c d e : Z) : Signals :=
  [ ("RSI"%string, a); ("MACD"%string, b); ("Stochastic"%string, c);
    ("MA"%string, d); ("OBV"%string, e) ].

(** A finite weight within the clip bounds. *)
Definition in_clip_range (w : float64) : Prop :=
  exists c, w = Fin c /\ 0.5 <= c <= 2.


(** The recurrence along two lists of rationals, started from [e]. *)
Fixpoint ema_from (alpha e : Q) (qs es : list Q) : Prop :=
  match qs, es with
  | [], [] => True
  | q :: qs', e' :: es' =>
      e' == alpha * q + (1 - alpha) * e /\ ema_from alpha e' qs' es'
  | _, _ => False
  end.

(** * Vocabulary and code for the further properties *)

(** The bars a rolling window of width [w] covers at position [t]. *)
Definition window {A : Type} (w t : nat) (xs : list A) : list A :=
  skipn (S t - w) (firstn (S t) xs).

(** A value that is missing or a percentage. *)
Definition in_percent_range (x : float64) : Prop :=
  x = NaN \/ exists q, x = Fin q /\ 0 <= q <= 100.

(** A bar with finite prices whose close lies between its low and high. *)
Definition ohlc_consistent (b : PriceBar) : Prop :=
  exists l c h,
    Low b = Fin l /\ Close b = Fin c /\ High b = Fin h /\ l <= c /\ c <= h.

(** Missing, or a finite number that is not negative. *)
Definition nonneg_or_missing (x : float64) : Prop :=
  match x with
  | Fin q => 0 <= q
  | _ => True
  end.


(** Eighteen bars whose high and low lie 2 above and 2 below the close. *)
Definition ranging_bars : PriceSeries :=
  map (fun z => mkBar (Fin (inject_Z z)) (Fin (inject_Z z + 2))
                  (Fin (inject_Z z - 2)) (Fin (inject_Z z)) (Fin 1000))
    [10; 11; 12; 11; 10; 9; 10; 11; 12; 13; 12; 11; 10; 11; 12; 13; 14; 13]%Z.

(** Eight rows: five earlier rows in front of [sample_frame], with volumes
    that make the mean volume of the last six rows differ from that of all
    eight. *)
Definition eight_rows : IndicatorFrame :=
  [ sample_row 96 100 50 0 0 0 50 50 96 96 0;
    sample_row 97 9000 52 0.2 0.1 0.1 55 52 96 96 9000;
    sample_row 98 1000 54 0.4 0.2 0.2 60 55 97 96 10000;
    sample_row 99 3000 56 0.6 0.3 0.3 65 60 97 97 13000;
    sample_row 98 500 50 0.8 0.4 0.4 50 58 98 97 12500 ]
  ++ sample_frame.

(** A three-bar frame with every indicator at its most bullish, and its
    mirror image. *)
Definition bullish_frame : IndicatorFrame :=
  [ sample_row 100 1000 50 0 0 0 50 50 100 100 0;
    sample_row 105 1000 40 1 1 0 30 30 102 100 1000;
    sample_row 110 1000 25 2 1 1 15 10 105 100 2000 ].

Definition bearish_frame : IndicatorFrame :=
  [ sample_row 110 1000 50 0 0 0 50 50 110 110 2000;
    sample_row 105 1000 60 (-1) (-1) 0 70 70 108 110 1000;
    sample_row 100 1000 75 (-2) (-1) (-1) 85 90 105 110 0 ].

(** The accumulator of the weighting loop of lines 388-397 after its last
    turn: [(weighted_scores, total_weight)]. *)
Definition weighted_totals (signals : Signals) (volume_weights : Series)
  : Series * float64 :=
  fold_left (weigh signals volume_weights) indicator_weights ([], Fin 0).

(** ** Summary figures (lines 414-417, 620 and 733) *)

(** Lines 414-417: the change of the latest close against the close
    before it, and the same as a percentage. *)
Definition price_change_of (close : Series) : option (float64 * float64) :=
  latest_price <- iloc close (-1) ;;
  previous_price <- (if (1 <? length close)%nat then iloc close (-2)
                     else Some latest_price) ;;
  let price_change := fsub latest_price previous_price in
  let price_change_pct :=
    if fne previous_price (Fin 0)
    then fmul (fdiv price_change previous_price) (Fin 100)
    else Fin 0 in
  Some (price_change, price_change_pct).








(** * Properties *)

(** ** Lists and passes *)

Lemma scan_length {A S B : Type} (step : S -> A -> S * B) (xs : list A) :
  forall s, length (scan step s xs) = length xs.
Proof.
  induction xs as [|x r IH]; intros s; simpl; [reflexivity|].
  destruct (step s x) as [s' y]. simpl. now rewrite IH.
Qed.

Lemma scan_firstn {A S B : Type} (step : S -> A -> S * B) (n : nat) :
  forall xs s, firstn n (scan step s xs) = scan step s (firstn n xs).
Proof.
  induction n as [|n IH]; intros xs s; [reflexivity|].
  destruct xs as [|x r]; simpl; [reflexivity|].
  destruct (step s x) as [s' y]. simpl. now rewrite IH.
Qed.

Lemma zip_with_firstn f (n : nat) :
  forall xs ys,
    firstn n (zip_with f xs ys) = zip_with f (firstn n xs) (firstn n ys).
Proof.
  induction n as [|n IH]; intros xs ys; [reflexivity|].
  destruct xs as [|x xs]; [reflexivity|].
  destruct ys as [|y ys]; simpl; [reflexivity|]. now rewrite IH.
Qed.

Lemma zip_with_length f :
  forall xs ys, length (zip_with f xs ys) = Nat.min (length xs) (length ys).
Proof.
  induction xs as [|x xs IH]; intros [|y ys]; simpl; auto.
Qed.

Lemma zip_with_nth_error f :
  forall xs ys t x y,
    nth_error xs t = Some x -> nth_error ys t = Some y ->
    nth_error (zip_with f xs ys) t = Some (f x y).
Proof.
  induction xs as [|x0 xs IH]; intros ys t x y Hx Hy.
  - destruct t; discriminate.
  - destruct ys as [|y0 ys]; [destruct t; discriminate|].
    destruct t as [|t]; simpl in *.
    + now inversion Hx; inversion Hy.
    + now apply IH.
Qed.

Lemma imap_length {A B : Type} (f : nat -> A -> B) (l : list A) :
  forall i, length (imap f i l) = length l.
Proof.
  induction l as [|x r IH]; intros i; simpl; [reflexivity|]. now rewrite IH.
Qed.

Lemma imap_firstn {A B : Type} (f : nat -> A -> B) (n : nat) :
  forall l i, firstn n (imap f i l) = imap f i (firstn n l).
Proof.
  induction n as [|n IH]; intros l i; [reflexivity|].
  destruct l as [|x r]; simpl; [reflexivity|]. now rewrite IH.
Qed.

Lemma imap_ext_below {A B : Type} (f g : nat -> A -> B) (l : list A) :
  forall i,
    (forall j x, (i <= j < i + length l)%nat -> f j x = g j x) ->
    imap f i l = imap g i l.
Proof.
  induction l as [|x r IH]; intros i H; simpl; [reflexivity|].
  rewrite (H i x) by (simpl; lia). f_equal.
  apply IH. intros j y Hj. apply H. simpl. lia.
Qed.

Lemma imap_nth_error {A B : Type} (f : nat -> A -> B) (l : list A) :
  forall i t x,
    nth_error l t = Some x -> nth_error (imap f i l) t = Some (f (i + t)%nat x).
Proof.
  induction l as [|x0 r IH]; intros i t x H.
  - destruct t; discriminate.
  - destruct t as [|t]; simpl in *.
    + inversion H. now rewrite Nat.add_0_r.
    + rewrite (IH (S i) t x H). f_equal. f_equal. lia.
Qed.

Lemma nth_error_firstn_S {A : Type} (l : list A) (t : nat) :
  nth_error (firstn (S t) l) t = nth_error l t.
Proof.
  revert l. induction t as [|t IH]; intros [|x r]; simpl; auto.
  apply (IH r).
Qed.

Lemma at_firstn (xs : Series) (n i : nat) :
  (i < n)%nat -> at_ (firstn n xs) i = at_ xs i.
Proof.
  unfold at_. revert xs i. induction n as [|n IH]; intros xs i Hi; [lia|].
  destruct xs as [|x r]; [reflexivity|].
  destruct i as [|i]; simpl; [reflexivity|]. apply IH. lia.
Qed.

(** ** Every column of the engine is computed left to right *)

Lemma diff_prefix : prefix_stable diff.
Proof.
  intros [|n] [|x r]; try reflexivity. simpl. now rewrite scan_firstn.
Qed.

Lemma rolling_prefix w agg : prefix_stable (rolling w agg).
Proof. intros n l. apply scan_firstn. Qed.

Lemma cumsum_prefix : prefix_stable cumsum.
Proof. intros n l. apply scan_firstn. Qed.

Lemma ewm_pass_prefix span : prefix_stable (ewm_pass span).
Proof.
  intros [|n] [|x r]; try reflexivity. simpl. now rewrite scan_firstn.
Qed.

Lemma ewm_mean_prefix span : prefix_stable (ewm_mean span).
Proof.
  intros n l. unfold ewm_mean. now rewrite ewm_pass_prefix, firstn_map.
Qed.

Lemma map_prefix {A B : Type} (f : A -> B) : prefix_stable (map f).
Proof. intros n l. apply firstn_map. Qed.

Lemma calculate_rsi_prefix period :
  prefix_stable (fun prices => calculate_rsi prices period).
Proof.
  intros n l. unfold calculate_rsi, rsi_gain, rsi_loss, where_.
  rewrite firstn_map, zip_with_firstn, !rolling_prefix, !firstn_map.
  now rewrite diff_prefix.
Qed.

Lemma macd_line_prefix fast slow signal :
  prefix_stable (fun p => fst (fst (calculate_macd p fast slow signal))).
Proof.
  intros n l. simpl. now rewrite zip_with_firstn, !ewm_mean_prefix.
Qed.

Lemma macd_signal_prefix fast slow signal :
  prefix_stable (fun p => snd (fst (calculate_macd p fast slow signal))).
Proof.
  intros n l. simpl.
  now rewrite ewm_mean_prefix, zip_with_firstn, !ewm_mean_prefix.
Qed.

Lemma macd_hist_prefix fast slow signal :
  prefix_stable (fun p => snd (calculate_macd p fast slow signal)).
Proof.
  intros n l. simpl.
  now rewrite zip_with_firstn, ewm_mean_prefix, zip_with_firstn,
    !ewm_mean_prefix.
Qed.

Lemma obv_prefix n close volume :
  firstn n (obv close volume) = obv (firstn n close) (firstn n volume).
Proof.
  unfold obv, fillna.
  now rewrite cumsum_prefix, firstn_map, zip_with_firstn, firstn_map,
    diff_prefix.
Qed.

Lemma stoch_k_prefix n high low close kp dp :
  firstn n (fst (calculate_stochastic high low close kp dp))
  = fst (calculate_stochastic (firstn n high) (firstn n low) (firstn n close)
           kp dp).
Proof.
  simpl. now rewrite firstn_map, !zip_with_firstn, !rolling_prefix.
Qed.

Lemma stoch_d_prefix n high low close kp dp :
  firstn n (snd (calculate_stochastic high low close kp dp))
  = snd (calculate_stochastic (firstn n high) (firstn n low) (firstn n close)
           kp dp).
Proof.
  simpl.
  now rewrite rolling_prefix, firstn_map, !zip_with_firstn, !rolling_prefix.
Qed.

Section EngineCausality.

Variable sqrtQ : Q -> Q.

Lemma col_MA_prefix w : prefix_stable (col_MA w).
Proof. intros n l. unfold col_MA. now rewrite rolling_prefix, firstn_map. Qed.

Lemma col_RSI_prefix : prefix_stable col_RSI.
Proof.
  intros n l. unfold col_RSI.
  now rewrite (calculate_rsi_prefix 14 n), firstn_map.
Qed.

Lemma col_MACD_prefix : prefix_stable col_MACD.
Proof.
  intros n l. unfold col_MACD.
  now rewrite (macd_line_prefix 12 26 9 n), firstn_map.
Qed.

Lemma col_MACD_Signal_prefix : prefix_stable col_MACD_Signal.
Proof.
  intros n l. unfold col_MACD_Signal.
  now rewrite (macd_signal_prefix 12 26 9 n), firstn_map.
Qed.

Lemma col_MACD_Hist_prefix : prefix_stable col_MACD_Hist.
Proof.
  intros n l. unfold col_MACD_Hist.
  now rewrite (macd_hist_prefix 12 26 9 n), firstn_map.
Qed.

Lemma col_Stoch_K_prefix : prefix_stable col_Stoch_K.
Proof.
  intros n l. unfold col_Stoch_K. now rewrite stoch_k_prefix, !firstn_map.
Qed.

Lemma col_Stoch_D_prefix : prefix_stable col_Stoch_D.
Proof.
  intros n l. unfold col_Stoch_D. now rewrite stoch_d_prefix, !firstn_map.
Qed.

Lemma col_OBV_prefix : prefix_stable col_OBV.
Proof.
  intros n l. unfold col_OBV. now rewrite obv_prefix, !firstn_map.
Qed.

Lemma col_BB_Middle_prefix : prefix_stable col_BB_Middle.
Proof.
  intros n l. unfold col_BB_Middle. now rewrite rolling_prefix, firstn_map.
Qed.

Lemma col_BB_Std_prefix : prefix_stable (col_BB_Std sqrtQ).
Proof.
  intros n l. unfold col_BB_Std. now rewrite rolling_prefix, firstn_map.
Qed.

Lemma col_BB_Upper_prefix : prefix_stable (col_BB_Upper sqrtQ).
Proof.
  intros n l. unfold col_BB_Upper.
  now rewrite zip_with_firstn, firstn_map, col_BB_Middle_prefix,
    col_BB_Std_prefix.
Qed.

Lemma col_BB_Lower_prefix : prefix_stable (col_BB_Lower sqrtQ).
Proof.
  intros n l. unfold col_BB_Lower.
  now rewrite zip_with_firstn, firstn_map, col_BB_Middle_prefix,
    col_BB_Std_prefix.
Qed.

Lemma at_prefix (F : PriceSeries -> Series) (n i : nat) (bars : PriceSeries) :
  prefix_stable F -> (i < n)%nat -> at_ (F (firstn n bars)) i = at_ (F bars) i.
Proof.
  intros HF Hi. rewrite <- (HF n bars). now apply at_firstn.
Qed.

Lemma indicator_frame_prefix : prefix_stable (indicator_frame sqrtQ).
Proof.
  intros n bars. unfold indicator_frame. rewrite imap_firstn.
  apply imap_ext_below. intros j b [_ Hj]. simpl in Hj.
  assert (Hjn : (j < n)%nat).
  { pose proof (firstn_le_length n bars). lia. }
  rewrite !(at_prefix (col_MA _) n j bars (col_MA_prefix _) Hjn),
    (at_prefix _ n j bars col_RSI_prefix Hjn),
    (at_prefix _ n j bars col_MACD_prefix Hjn),
    (at_prefix _ n j bars col_MACD_Signal_prefix Hjn),
    (at_prefix _ n j bars col_MACD_Hist_prefix Hjn),
    (at_prefix _ n j bars col_Stoch_K_prefix Hjn),
    (at_prefix _ n j bars col_Stoch_D_prefix Hjn),
    (at_prefix _ n j bars col_OBV_prefix Hjn),
    (at_prefix _ n j bars col_BB_Middle_prefix Hjn),
    (at_prefix _ n j bars col_BB_Std_prefix Hjn),
    (at_prefix _ n j bars col_BB_Upper_prefix Hjn),
    (at_prefix _ n j bars col_BB_Lower_prefix Hjn).
  reflexivity.
Qed.

End EngineCausality.

(** ** float64 facts *)

Lemma feq_refl x : x =f= x.
Proof. destruct x; simpl; auto. reflexivity. Qed.

Lemma feq_sym x y : x =f= y -> y =f= x.
Proof. destruct x, y; simpl; auto. intros H; now symmetry. Qed.

Lemma feq_trans x y z : x =f= y -> y =f= z -> x =f= z.
Proof.
  destruct x, y, z; simpl; auto; try contradiction.
  intros H1 H2. now rewrite H1.
Qed.

Lemma pos_of_nat_S (k : nat) : 0 < inject_Z (Z.of_nat (S k)).
Proof. unfold Qlt. simpl. lia. Qed.

(** The final clamp [max(0, min(100, x))] lands in [0,100] whatever [x]
    is, NaN and the infinities included. *)
Lemma clamp_range (x : float64) :
  exists u, py_max (Fin 0) (py_min (Fin 100) x) = Fin u /\ 0 <= u <= 100.
Proof.
  unfold py_max, py_min, fgt.
  destruct x as [| | |q]; simpl.
  - exists 100. split; [reflexivity|lra].
  - exists 100. split; [reflexivity|lra].
  - exists 0. split; [reflexivity|lra].
  - destruct (Qcompare_spec q 100) as [H|H|H]; simpl.
    + exists 100. split; [reflexivity|lra].
    + destruct (Qcompare_spec 0 q) as [H0|H0|H0].
      * exists 0. split; [reflexivity|lra].
      * exists q. split; [reflexivity|lra].
      * exists 0. split; [reflexivity|lra].
    + exists 100. split; [reflexivity|lra].
Qed.

(** Strictly inside the range the clamp returns its argument. *)
Lemma clamp_inside (q : Q) :
  0 < q -> q < 100 -> py_max (Fin 0) (py_min (Fin 100) (Fin q)) = Fin q.
Proof.
  intros H0 H1. unfold py_max, py_min, fgt. simpl.
  destruct (Qcompare_spec q 100) as [H|H|H]; try lra. simpl.
  destruct (Qcompare_spec 0 q) as [H'|H'|H']; try lra. reflexivity.
Qed.

Lemma clamp_feq (x y : float64) :
  x =f= y ->
  py_max (Fin 0) (py_min (Fin 100) x) =f= py_max (Fin 0) (py_min (Fin 100) y).
Proof.
  destruct x as [| | |a]; destruct y as [| | |b]; simpl; try contradiction;
    try (intros _; reflexivity).
  intros Hab. unfold py_max, py_min, fgt. simpl.
  destruct (Qcompare_spec a 100), (Qcompare_spec b 100); try lra; simpl;
    try reflexivity.
  destruct (Qcompare_spec 0 a), (Qcompare_spec 0 b); try lra; simpl;
    try reflexivity; assumption.
Qed.

Lemma fsub_feq_Fin (c a b : Q) : a == b -> fsub (Fin c) (Fin a) =f= fsub (Fin c) (Fin b).
Proof. intros H. simpl. now rewrite H. Qed.

(** ** Windows and positions *)

Lemma tail_length {A : Type} (n : Z) (l : list A) :
  (1 <= n)%Z -> length (tail n l) = Nat.min (length l) (Z.to_nat n).
Proof.
  intros Hn. unfold tail.
  destruct (Z.eqb_spec n 0); [lia|].
  destruct (Z.ltb_spec 0 n); [|lia].
  rewrite length_skipn. lia.
Qed.

Lemma In_skipn {A : Type} (k : nat) (l : list A) (x : A) :
  In x (skipn k l) -> In x l.
Proof.
  intros H. rewrite <- (firstn_skipn k l). apply in_or_app. now right.
Qed.

Lemma tail_incl {A : Type} (n : Z) (l : list A) (x : A) :
  In x (tail n l) -> In x l.
Proof.
  unfold tail. destruct (n =? 0)%Z; [intros []|].
  destruct (0 <? n)%Z; apply In_skipn.
Qed.

Lemma recent_window_length (df : IndicatorFrame) (lookback_period : Z) :
  (1 <= lookback_period)%Z ->
  length (recent_window df lookback_period)
  = Nat.min (length df) (Z.to_nat lookback_period).
Proof.
  intros Hl. unfold recent_window.
  destruct (Z.ltb_spec (Z.of_nat (length df)) lookback_period).
  - destruct df as [|r df]; [reflexivity|].
    rewrite tail_length by (simpl length; lia). lia.
  - now apply tail_length.
Qed.

Lemma recent_window_incl (df : IndicatorFrame) (lookback_period : Z) (r : Row) :
  In r (recent_window df lookback_period) -> In r df.
Proof. unfold recent_window. apply tail_incl. Qed.

Lemma iloc_neg_Some {A : Type} (l : list A) (k : Z) :
  (1 <= k <= Z.of_nat (length l))%Z -> exists x, iloc l (- k) = Some x.
Proof.
  intros Hk. unfold iloc.
  destruct (Z.leb_spec 0 (- k)); [lia|].
  rewrite Z.opp_involutive.
  destruct (Z.leb_spec k (Z.of_nat (length l))); [|lia].
  destruct (nth_error l (length l - Z.to_nat k)) eqn:E; [eauto|].
  apply nth_error_None in E. lia.
Qed.

Lemma iloc_In {A : Type} (l : list A) (i : Z) (x : A) :
  iloc l i = Some x -> In x l.
Proof.
  unfold iloc. destruct (0 <=? i)%Z.
  - apply nth_error_In.
  - destruct (- i <=? Z.of_nat (length l))%Z; [apply nth_error_In|discriminate].
Qed.

Lemma iloc_map_all {A : Type} (f : A -> float64) (l : list A) (i : Z) (x v : float64) :
  (forall a, In a l -> f a = v) -> iloc (map f l) i = Some x -> x = v.
Proof.
  intros Hall H. apply iloc_In in H. apply in_map_iff in H.
  destruct H as [a [<- Ha]]. now apply Hall.
Qed.

(** ** Sub-scores *)

Lemma rsi_signal_values x : In (rsi_signal x) score_values.
Proof.
  unfold rsi_signal, score_values.
  repeat match goal with |- context [if ?c then _ else _] => destruct c end;
    simpl; tauto.
Qed.

Lemma macd_signal_values a b c d : In (macd_signal a b c d) score_values.
Proof.
  unfold macd_signal, score_values.
  repeat match goal with |- context [if ?c then _ else _] => destruct c end;
    simpl; tauto.
Qed.

Lemma stoch_signal_values k d : In (stoch_signal k d) score_values.
Proof.
  unfold stoch_signal, score_values.
  repeat match goal with |- context [if ?c then _ else _] => destruct c end;
    simpl; tauto.
Qed.

Lemma ma_signal_values p a b : In (ma_signal p a b) score_values.
Proof.
  unfold ma_signal, score_values.
  repeat match goal with |- context [if ?c then _ else _] => destruct c end;
    simpl; tauto.
Qed.

Lemma obv_signal_values a b : In (obv_signal a b) score_values.
Proof.
  unfold obv_signal, score_values.
  repeat match goal with |- context [if ?c then _ else _] => destruct c end;
    simpl; tauto.
Qed.

Lemma score_values_bounds (z : Z) :
  In z score_values -> 20 <= inject_Z z <= 80.
Proof.
  intros H. assert (Hz : (20 <= z <= 80)%Z).
  { unfold score_values in H. simpl in H. intuition lia. }
  split; [change 20 with (inject_Z 20)|change 80 with (inject_Z 80)];
    rewrite <- Zle_Qle; lia.
Qed.

Ltac step_bind H :=
  match type of H with
  | bind ?m _ = Some _ =>
      let E := fresh "E" in destruct m eqn:E; [simpl bind in H|discriminate H]
  end.

Lemma signals_of_shape (recent_df : IndicatorFrame) (s : Signals) :
  signals_of recent_df = Some s ->
  exists a b c d e,
    s = five_signals a b c d e /\
    In a score_values /\ In b score_values /\ In c score_values /\
    In d score_values /\ In e score_values.
Proof.
  unfold signals_of. intros H.
  do 11 step_bind H. inversion H; subst s; clear H.
  do 5 eexists. split; [reflexivity|].
  repeat split; auto using rsi_signal_values, macd_signal_values,
    stoch_signal_values, ma_signal_values.
  destruct (1 <? length recent_df)%nat.
  - repeat step_bind E9. inversion E9. apply obv_signal_values.
  - inversion E9. simpl. tauto.
Qed.

Lemma signals_of_Some (recent_df : IndicatorFrame) :
  recent_df <> [] -> exists s, signals_of recent_df = Some s.
Proof.
  intros Hne.
  assert (Hlen : (1 <= length recent_df)%nat).
  { destruct recent_df; [contradiction|simpl; lia]. }
  assert (Hlast : forall f : Row -> float64,
             exists x, iloc (map f recent_df) (-1) = Some x).
  { intros f. apply (iloc_neg_Some (map f recent_df) 1).
    rewrite length_map. lia. }
  unfold signals_of.
  destruct (Hlast RSI) as [x1 ->], (Hlast MACD) as [x2 ->],
    (Hlast MACD_Signal) as [x3 ->], (Hlast MACD_Hist) as [x4 E4],
    (Hlast Stoch_K) as [x5 E5], (Hlast Stoch_D) as [x6 E6],
    (Hlast (fun r => Close (bar r))) as [x7 E7],
    (Hlast MA_5) as [x8 E8], (Hlast MA_20) as [x9 E9], (Hlast OBV) as [x10 E10].
  simpl bind. rewrite E4. simpl bind.
  destruct (Nat.ltb_spec 1 (length recent_df)) as [Hgt|Hle].
  - destruct (iloc_neg_Some (map MACD_Hist recent_df) 2) as [y Ey].
    { rewrite length_map. lia. }
    change (-2)%Z with (- (2))%Z. rewrite Ey. simpl bind.
    rewrite E5. simpl bind. rewrite E6. simpl bind. rewrite E7. simpl bind.
    rewrite E8. simpl bind. rewrite E9. simpl bind. rewrite E10. simpl bind.
    set (k := Z.min 5 (Z.of_nat (length recent_df) - 1)).
    destruct (iloc_neg_Some (map OBV recent_df) k) as [o Eo].
    { rewrite length_map. unfold k. lia. }
    destruct (iloc_neg_Some (map (fun r => Close (bar r)) recent_df) k)
      as [p Ep].
    { rewrite length_map. unfold k. lia. }
    rewrite Eo. simpl bind. rewrite Ep. simpl bind. eauto.
  - simpl bind.
    rewrite E5. simpl bind. rewrite E6. simpl bind. rewrite E7. simpl bind.
    rewrite E8. simpl bind. rewrite E9. simpl bind. eauto.
Qed.

(** ** Volume weights and the blend *)

Lemma clip_fillna_range (x : float64) :
  in_clip_range (clip1 (Fin 0.5) (Fin 2.0) (if notna x then x else Fin 1.0)).
Proof.
  unfold in_clip_range, clip1, fgt.
  destruct x as [| | |q]; simpl.
  - exists 1.0. split; [reflexivity|lra].
  - exists 2.0. split; [reflexivity|lra].
  - exists 0.5. split; [reflexivity|lra].
  - destruct (Qcompare_spec q 0.5).
    + destruct (Qcompare_spec 2.0 q); try lra.
      exists q. split; [reflexivity|lra].
    + exists 0.5. split; [reflexivity|lra].
    + destruct (Qcompare_spec 2.0 q).
      * exists q. split; [reflexivity|lra].
      * exists 2.0. split; [reflexivity|lra].
      * exists q. split; [reflexivity|lra].
Qed.

Lemma volume_weights_range (recent_df : IndicatorFrame) :
  Forall in_clip_range (volume_weights_of recent_df).
Proof.
  unfold volume_weights_of, clip, fillna. rewrite !map_map.
  apply Forall_forall. intros w Hw. apply in_map_iff in Hw.
  destruct Hw as [v [<- _]]. apply clip_fillna_range.
Qed.

Lemma volume_weights_length (recent_df : IndicatorFrame) :
  recent_df <> [] -> (0 < length (volume_weights_of recent_df))%nat.
Proof.
  intros Hne. unfold volume_weights_of, clip, fillna.
  rewrite !length_map, tail_length by lia. rewrite length_map.
  destruct recent_df; [contradiction|simpl; lia].
Qed.

Lemma fold_fadd_range (xs : Series) :
  Forall in_clip_range xs ->
  forall a, exists s,
    fold_left fadd xs (Fin a) = Fin s /\
    a + 0.5 * inject_Z (Z.of_nat (length xs)) <= s
    /\ s <= a + 2 * inject_Z (Z.of_nat (length xs)).
Proof.
  induction 1 as [|w xs [c [-> Hc]] _ IH]; intros a.
  - exists a. simpl. split; [reflexivity|]. unfold inject_Z. lra.
  - destruct (IH (a + c)) as [s [Hs Hb]]. exists s. split; [exact Hs|].
    change (length (Fin c :: xs)) with (S (length xs)).
    rewrite Nat2Z.inj_succ. unfold Z.succ. rewrite inject_Z_plus.
    change (inject_Z 1) with 1. lra.
Qed.

(** The scalar [volume_weight] is a number between 0.5 and 2. *)
Lemma np_mean_range (xs : Series) :
  xs <> [] -> Forall in_clip_range xs -> in_clip_range (np_mean xs).
Proof.
  intros Hne Hall. unfold np_mean.
  destruct (fold_fadd_range xs Hall 0) as [s [-> [Hlo Hhi]]].
  destruct xs as [|x xs]; [contradiction|].
  pose proof (pos_of_nat_S (length xs)) as Hn.
  change (S (length xs)) with (length (x :: xs)) in Hn.
  set (n := inject_Z (Z.of_nat (length (x :: xs)))) in *.
  assert (Hv : 0.5 <= s / n <= 2).
  { split.
    - apply Qle_shift_div_l; [exact Hn|lra].
    - apply Qle_shift_div_r; [exact Hn|lra]. }
  unfold fdiv. destruct (Qcompare_spec n 0); try lra;
    exists (s / n); (split; [reflexivity|exact Hv]).
Qed.

Lemma volume_weight_range (recent_df : IndicatorFrame) :
  recent_df <> [] -> in_clip_range (np_mean (volume_weights_of recent_df)).
Proof.
  intros Hne. apply np_mean_range; [|apply volume_weights_range].
  pose proof (volume_weights_length recent_df Hne) as H.
  destruct (volume_weights_of recent_df); [simpl in H; lia|discriminate].
Qed.

(** With a positive volume weight the weighted average is the plain
    weighted sum of the sub-scores. *)
Lemma final_score_of_value (a b c d e : Z) (vws : Series) (v : Q) :
  vws <> [] -> np_mean vws = Fin v -> 0 < v ->
  exists q,
    final_score_of (five_signals a b c d e) vws = Fin q /\
    q == inject_Z a * 0.25 + inject_Z b * 0.25 + inject_Z c * 0.15
         + inject_Z d * 0.20 + inject_Z e * 0.15.
Proof.
  intros Hne Hmean Hv.
  assert (Hlen : (0 <? length vws)%nat = true).
  { destruct vws; [contradiction|reflexivity]. }
  unfold final_score_of, five_signals, indicator_weights, weigh.
  cbn [fold_left lookup String.eqb Ascii.eqb Bool.eqb fst snd app].
  rewrite Hlen, Hmean. cbn [fmul fadd].
  set (total := 0 + 0.25 * v + 0.25 * v + 0.15 * v + 0.20 * v + 0.15 * v).
  assert (Ht : total == v) by (unfold total; lra).
  unfold fgt, flt.
  destruct (Qcompare_spec 0 total) as [H0|H0|H0]; try lra.
  cbn [fold_left fadd]. unfold fdiv.
  destruct (Qcompare_spec total 0) as [H1|H1|H1]; try lra.
  eexists. split; [reflexivity|].
  unfold total. field. lra.
Qed.

Lemma simplified_score_value (a b c d e : Z) :
  exists q,
    simplified_score (five_signals a b c d e) = Fin q /\
    q == inject_Z a * 0.25 + inject_Z b * 0.25 + inject_Z c * 0.15
         + inject_Z d * 0.20 + inject_Z e * 0.15.
Proof.
  unfold simplified_score, five_signals, indicator_weights.
  cbn [fold_left lookup String.eqb Ascii.eqb Bool.eqb fmul fadd].
  eexists. split; [reflexivity|]. lra.
Qed.

(** ** The scorer *)

Lemma recent_window_nonempty (df : IndicatorFrame) (lookback_period : Z) :
  df <> [] -> (1 <= lookback_period)%Z -> recent_window df lookback_period <> [].
Proof.
  intros Hne Hl Hnil.
  pose proof (recent_window_length df lookback_period Hl) as H.
  rewrite Hnil in H. destruct df; [contradiction|cbn [length] in H; lia].
Qed.

Lemma signals_of_nil : signals_of [] = None.
Proof. reflexivity. Qed.

(** What a successful run of the scorer computed. *)
Lemma scorer_run (recent_df : IndicatorFrame) (s : Signals) :
  signals_of recent_df = Some s ->
  exists a b c d e q,
    s = five_signals a b c d e /\
    In a score_values /\ In b score_values /\ In c score_values /\
    In d score_values /\ In e score_values /\
    final_score_of s (volume_weights_of recent_df) = Fin q /\
    q == inject_Z a * 0.25 + inject_Z b * 0.25 + inject_Z c * 0.15
         + inject_Z d * 0.20 + inject_Z e * 0.15.
Proof.
  intros Hs.
  assert (Hne : recent_df <> []).
  { intros ->. rewrite signals_of_nil in Hs. discriminate. }
  destruct (signals_of_shape _ _ Hs) as (a & b & c & d & e & -> & Ha & Hb & Hc & Hd & He).
  destruct (volume_weight_range recent_df Hne) as [v [Hv Hrange]].
  destruct (final_score_of_value a b c d e (volume_weights_of recent_df) v)
    as [q [Hq Hval]]; [|exact Hv|lra|].
  { pose proof (volume_weights_length recent_df Hne) as H.
    destruct (volume_weights_of recent_df); [simpl in H; lia|discriminate]. }
  exists a, b, c, d, e, q. repeat split; assumption.
Qed.

(** On an empty frame, or with a window of no bars, the script raises on
    its first [iloc[-1]]. *)
Lemma scorer_fails_without_bars (df : IndicatorFrame) (lookback_period : Z) :
  calculate_probability [] lookback_period = None /\
  calculate_probability df 0 = None.
Proof.
  split.
  - assert (H : recent_window [] lookback_period = []).
    { unfold recent_window, tail. cbn [length Z.of_nat].
      destruct (0 <? lookback_period)%Z eqn:E; [reflexivity|].
      destruct (lookback_period =? 0)%Z; [reflexivity|].
      rewrite E. apply skipn_nil. }
    unfold calculate_probability. rewrite H. reflexivity.
  - assert (H : recent_window df 0 = []).
    { unfold recent_window, tail.
      destruct (Z.ltb_spec (Z.of_nat (length df)) 0); [lia|reflexivity]. }
    unfold calculate_probability. rewrite H. reflexivity.
Qed.

(** C1.  For a non-empty frame and [lookback_period >= 1] the scorer returns
    a pair of probabilities that sum to exactly 100, each within [0,100]. *)
Theorem probabilities_sum_to_100 (df : IndicatorFrame) (lookback_period : Z) :
  df <> [] -> (1 <= lookback_period)%Z ->
  exists up down signals,
    calculate_probability df lookback_period = Some (Fin up, Fin down, signals) /\
    up + down == 100 /\ 0 <= up <= 100 /\ 0 <= down <= 100.
Proof.
  intros Hne Hl. unfold calculate_probability.
  destruct (signals_of_Some _ (recent_window_nonempty df lookback_period Hne Hl))
    as [s ->]. simpl bind.
  destruct (clamp_range
              (final_score_of s
                 (volume_weights_of (recent_window df lookback_period))))
    as [u [-> Hu]].
  exists u, (100 + - u), s. split; [reflexivity|]. repeat split; lra.
Qed.

Lemma probabilities_sum_to_100_witness :
  exists up down signals,
    calculate_probability sample_frame 20 = Some (Fin up, Fin down, signals) /\
    up + down == 100 /\ 0 <= up <= 100 /\ 0 <= down <= 100.
Proof.
  apply probabilities_sum_to_100; [discriminate|lia].
Defined.

(** C9, as stated, fails: in float64 the volume weight does not cancel bit
    for bit.  On [sample_frame] (volumes 1000, 3000, 500; volume weight
    about 1.0556, which is positive) the blend of the script gives an up
    probability just above 44.5 and a down probability just below 55.5,
    where the sum of sub-score times base weight is 44.5; the score maps
    are the same, and the two up probabilities differ by less than
    [tolerance]. *)
Lemma volume_weight_leaves_rounding :
  exists up down up' down' signals,
    Binary64.calculate_probability sample_frame 20 = Some (up, down, signals) /\
    Binary64.calculate_probability_simplified sample_frame 20
    = Some (up', down', signals) /\
    PrimFloat.ltb PrimFloat.zero
      (Binary64.np_mean
         (Binary64.volume_weights_of (recent_window sample_frame 20))) = true /\
    PrimFloat.eqb up' (Binary64.of_Q 44.5) = true /\
    PrimFloat.eqb up up' = false /\
    PrimFloat.ltb up' up = true /\
    PrimFloat.ltb down down' = true /\
    PrimFloat.ltb (PrimFloat.sub up up') (Binary64.of_Q tolerance) = true.
Proof.
  destruct (Binary64.calculate_probability sample_frame 20)
    as [[[u d] s]|] eqn:E; vm_compute in E; [|discriminate E].
  destruct (Binary64.calculate_probability_simplified sample_frame 20)
    as [[[u' d'] s']|] eqn:E'; vm_compute in E'; [|discriminate E'].
  inversion E; inversion E'; subst.
  do 5 eexists. split; [reflexivity|]. split; [reflexivity|].
  repeat split; vm_compute; reflexivity.
Qed.

(** C9, amended.  The shared volume weight cancels up to rounding: the
    scorer and the computation with the base weights alone raise together,
    or return the same score map and probabilities that agree within
    [tolerance]. *)
Theorem volume_weight_cancels_up_to_rounding (df : IndicatorFrame)
  (lookback_period : Z) :
  match calculate_probability df lookback_period,
        calculate_probability_simplified df lookback_period with
  | Some (up, down, signals), Some (up', down', signals') =>
      agree up up' /\ agree down down' /\ signals = signals'
  | None, None => True
  | _, _ => False
  end.
Proof.
  unfold calculate_probability, calculate_probability_simplified.
  destruct (signals_of (recent_window df lookback_period)) as [s|] eqn:Hs;
    simpl bind; [|exact I].
  destruct (scorer_run _ _ Hs)
    as (a & b & c & d & e & q & -> & _ & _ & _ & _ & _ & -> & Hq).
  destruct (simplified_score_value a b c d e) as [q' [-> Hq']].
  assert (Hup : py_max (Fin 0) (py_min (Fin 100) (Fin q))
                =f= py_max (Fin 0) (py_min (Fin 100) (Fin q'))).
  { apply clamp_feq. simpl. rewrite Hq, Hq'. reflexivity. }
  destruct (clamp_range (Fin q)) as [u [Eu _]].
  destruct (clamp_range (Fin q')) as [u' [Eu' _]].
  rewrite Eu, Eu' in *. simpl in Hup.
  split; [|split; [|reflexivity]].
  - exists u, u'. split; [reflexivity|]. split; [reflexivity|].
    unfold tolerance. split; lra.
  - exists (100 + - u), (100 + - u').
    split; [reflexivity|]. split; [reflexivity|].
    unfold tolerance. split; lra.
Qed.

(** C10.  Every sub-score is one of 20, 25, ..., 80; the final score lies in
    [20,80], and the clamp to [0,100] hands it back unchanged. *)
Theorem subscores_bound_final_score (df : IndicatorFrame) (lookback_period : Z) :
  df <> [] -> (1 <= lookback_period)%Z ->
  exists up down signals q,
    calculate_probability df lookback_period = Some (up, down, signals) /\
    Forall (fun kv => In (snd kv) score_values) signals /\
    final_score df lookback_period = Some (Fin q) /\
    20 <= q <= 80 /\ up = Fin q.
Proof.
  intros Hne Hl. unfold calculate_probability, final_score.
  destruct (signals_of_Some _ (recent_window_nonempty df lookback_period Hne Hl))
    as [s Hs]. rewrite Hs. simpl bind.
  destruct (scorer_run _ _ Hs)
    as (a & b & c & d & e & q & -> & Ha & Hb & Hc & Hd & He & -> & Hq).
  do 3 eexists. exists q. split; [reflexivity|]. split.
  - unfold five_signals.
    repeat (apply Forall_cons; [assumption|]). apply Forall_nil.
  - apply score_values_bounds in Ha, Hb, Hc, Hd, He.
    assert (Hr : 20 <= q <= 80) by lra.
    repeat split; try lra. apply clamp_inside; lra.
Qed.

Lemma subscores_bound_final_score_witness :
  exists up down signals q,
    calculate_probability sample_frame 20 = Some (up, down, signals) /\
    Forall (fun kv => In (snd kv) score_values) signals /\
    final_score sample_frame 20 = Some (Fin q) /\
    20 <= q <= 80 /\ up = Fin q.
Proof.
  apply subscores_bound_final_score; [discriminate|lia].
Defined.

(** ** Frames without indicators *)

(** C4, as stated, fails: on a two-bar frame whose indicator fields are all
    missing the scorer returns 50.75, not 50. *)
Lemma undefined_frame_not_50 :
  Forall indicators_undefined undefined_frame /\
  exists up down signals,
    calculate_probability undefined_frame 20 = Some (up, down, signals) /\
    ~ up =f= Fin 50.
Proof.
  split.
  - repeat (apply Forall_cons; [repeat split|]). apply Forall_nil.
  - do 3 eexists. split; [vm_compute; reflexivity|].
    vm_compute. discriminate.
Qed.

(** C4, amended.  On a non-empty frame whose indicator fields are all
    missing, the RSI, MACD, Stochastic and MA sub-scores are 50.  When the
    window has a single bar the OBV sub-score is 50 too and
    [up_probability] is 50; when it has two bars or more the OBV sub-score
    is 55 and [up_probability] is 50.75 up to rounding (within
    [tolerance]), so not 50. *)
Theorem undefined_indicators_score (df : IndicatorFrame) (lookback_period : Z) :
  df <> [] -> (1 <= lookback_period)%Z ->
  Forall indicators_undefined df ->
  exists up down obv_score,
    calculate_probability df lookback_period
    = Some (up, down, five_signals 50 50 50 50 obv_score) /\
    (length df = 1%nat \/ lookback_period = 1%Z ->
     obv_score = 50%Z /\ up =f= Fin 50) /\
    ((2 <= length df)%nat /\ (2 <= lookback_period)%Z ->
     obv_score = 55%Z /\ close_to up 50.75 /\ ~ close_to up 50).
Proof.
  intros Hne Hl Hall.
  set (recent_df := recent_window df lookback_period).
  assert (Hrne : recent_df <> []) by now apply recent_window_nonempty.
  assert (Hlen : length recent_df = Nat.min (length df) (Z.to_nat lookback_period))
    by now apply recent_window_length.
  assert (Hund : forall r, In r recent_df -> indicators_undefined r).
  { intros r Hr. apply recent_window_incl in Hr.
    rewrite Forall_forall in Hall. now apply Hall. }
  assert (HN : forall f : Row -> float64,
             (forall r, indicators_undefined r -> f r = NaN) ->
             forall i x, iloc (map f recent_df) i = Some x -> x = NaN).
  { intros f Hf i x Hx. apply (iloc_map_all f recent_df i x NaN); auto. }
  destruct (signals_of_Some recent_df Hrne) as [s Hs].
  assert (Hshape : exists e,
             s = five_signals 50 50 50 50 e /\
             ((length recent_df <= 1)%nat -> e = 50%Z) /\
             ((1 < length recent_df)%nat -> e = 55%Z)).
  { pose proof Hs as H. unfold signals_of in H.
    do 11 step_bind H. inversion H; subst s; clear H.
    apply (HN RSI) in E; [|unfold indicators_undefined; tauto].
    apply (HN MACD) in E0; [|unfold indicators_undefined; tauto].
    apply (HN MACD_Signal) in E1; [|unfold indicators_undefined; tauto].
    apply (HN Stoch_K) in E4; [|unfold indicators_undefined; tauto].
    apply (HN Stoch_D) in E5; [|unfold indicators_undefined; tauto].
    apply (HN MA_5) in E7; [|unfold indicators_undefined; tauto].
    apply (HN MA_20) in E8; [|unfold indicators_undefined; tauto].
    subst. exists z. split; [reflexivity|].
    destruct (Nat.ltb_spec 1 (length recent_df)) as [Hgt|Hle].
    - split; [lia|intros _].
      destruct (iloc (map OBV recent_df) (-1)) as [o|] eqn:Eo;
        [simpl bind in E9|discriminate E9].
      apply (HN OBV) in Eo; [|unfold indicators_undefined; tauto]. subst o.
      repeat step_bind E9. inversion E9. reflexivity.
    - split; [intros _|lia]. now inversion E9. }
  destruct Hshape as (e & -> & H1 & H2).
  destruct (scorer_run _ _ Hs)
    as (a & b & c & d & e' & q & Heq & _ & _ & _ & _ & _ & Hq & Hval).
  inversion Heq; subst a b c d e'; clear Heq.
  unfold calculate_probability. fold recent_df. rewrite Hs. simpl bind.
  rewrite Hq.
  do 2 eexists. exists e. split; [reflexivity|].
  split.
  - intros Hone. assert (He : e = 50%Z) by (apply H1; lia). subst e.
    split; [reflexivity|].
    assert (Hq50 : q == 50) by (rewrite Hval; reflexivity).
    rewrite clamp_inside by lra. exact Hq50.
  - intros [Hd2 Hl2]. assert (He : e = 55%Z) by (apply H2; lia). subst e.
    split; [reflexivity|].
    assert (Hq50 : q == 50.75) by (rewrite Hval; reflexivity).
    rewrite clamp_inside by lra. split.
    + exists q. split; [reflexivity|]. unfold tolerance. split; lra.
    + intros (x & Hx & Hx1 & Hx2). inversion Hx; subst x.
      unfold tolerance in Hx2. lra.
Qed.

Lemma undefined_indicators_score_witness :
  exists up down obv_score,
    calculate_probability undefined_frame 20
    = Some (up, down, five_signals 50 50 50 50 obv_score) /\
    (length undefined_frame = 1%nat \/ 20%Z = 1%Z ->
     obv_score = 50%Z /\ up =f= Fin 50) /\
    ((2 <= length undefined_frame)%nat /\ (2 <= 20)%Z ->
     obv_score = 55%Z /\ close_to up 50.75 /\ ~ close_to up 50).
Proof.
  apply undefined_indicators_score; [discriminate|lia|].
  repeat (apply Forall_cons; [repeat split|]). apply Forall_nil.
Defined.

(** ** The engine on short and on flat series *)

(** C8.  No look-ahead: two price series that agree on their first [t+1]
    bars get the same row [t] of the indicator frame (every derived field
    included), and that row is the one computed from those [t+1] bars
    alone. *)
Theorem no_lookahead (sqrtQ : Q -> Q) (bars1 bars2 : PriceSeries) (t : nat) :
  firstn (S t) bars1 = firstn (S t) bars2 ->
  nth_error (indicator_frame sqrtQ bars1) t
  = nth_error (indicator_frame sqrtQ bars2) t /\
  nth_error (indicator_frame sqrtQ bars1) t
  = nth_error (indicator_frame sqrtQ (firstn (S t) bars1)) t.
Proof.
  intros H.
  assert (Hcut : forall bars,
             nth_error (indicator_frame sqrtQ bars) t
             = nth_error (indicator_frame sqrtQ (firstn (S t) bars)) t).
  { intros bars. rewrite <- (indicator_frame_prefix sqrtQ (S t) bars).
    symmetry. apply nth_error_firstn_S. }
  split; [|apply Hcut].
  rewrite (Hcut bars1), (Hcut bars2), H. reflexivity.
Qed.

Lemma no_lookahead_witness :
  nth_error (indicator_frame sqrt_approx bars_a) 1
  = nth_error (indicator_frame sqrt_approx bars_b) 1 /\
  nth_error (indicator_frame sqrt_approx bars_a) 1
  = nth_error (indicator_frame sqrt_approx (firstn 2 bars_a)) 1.
Proof.
  apply (no_lookahead sqrt_approx bars_a bars_b 1). reflexivity.
Defined.

(** C3, as stated, fails: the frame of a single bar has a MACD line (and an
    OBV) that is defined. *)
Lemma single_bar_frame_has_defined_fields :
  (length [flat_bar 100 1000] < 2)%nat /\
  ~ Forall all_derived_undefined
      (indicator_frame sqrt_approx [flat_bar 100 1000]).
Proof.
  split; [simpl; lia|].
  intros H. inversion H as [|r l Hr _]; subst.
  destruct Hr as (_ & _ & _ & _ & _ & Hmacd & _).
  vm_compute in Hmacd. discriminate.
Qed.

(** C3, amended.  On a series of fewer than two bars the engine returns a
    frame of the same length in which the moving averages, RSI, Stoch_K,
    Stoch_D and the Bollinger fields are missing at every bar, OBV is 0,
    and, for a finite close, MACD line, signal and histogram are 0. *)
Theorem short_series_frame (sqrtQ : Q -> Q) (bars : PriceSeries) :
  (length bars < 2)%nat ->
  length (indicator_frame sqrtQ bars) = length bars /\
  Forall (fun r =>
            windowed_undefined r /\ OBV r =f= Fin 0 /\
            (is_finite (Close (bar r)) ->
             MACD r =f= Fin 0 /\ MACD_Signal r =f= Fin 0 /\
             MACD_Hist r =f= Fin 0))
         (indicator_frame sqrtQ bars).
Proof.
  intros Hlen. split; [apply imap_length|].
  destruct bars as [|b [|b' r]]; [apply Forall_nil| |simpl in Hlen; lia].
  destruct b as [o h l c v].
  apply Forall_cons; [|apply Forall_nil].
  split; [|split].
  - destruct c; repeat split.
  - simpl. ring.
  - destruct c; simpl; try contradiction. intros _.
    repeat split; ring.
Qed.

Lemma short_series_frame_witness :
  length (indicator_frame sqrt_approx [flat_bar 100 1000])
  = length [flat_bar 100 1000] /\
  Forall (fun r =>
            windowed_undefined r /\ OBV r =f= Fin 0 /\
            (is_finite (Close (bar r)) ->
             MACD r =f= Fin 0 /\ MACD_Signal r =f= Fin 0 /\
             MACD_Hist r =f= Fin 0))
         (indicator_frame sqrt_approx [flat_bar 100 1000]).
Proof.
  apply short_series_frame. simpl. lia.
Defined.

(** C2, as stated, fails: on fourteen flat bars the highest high equals the
    lowest low and %K is NaN, not 50. *)
Lemma flat_stochastic_not_50 :
  nth_error (rolling 14 agg_max flat_series) 13 = Some (Fin 5) /\
  nth_error (rolling 14 agg_min flat_series) 13 = Some (Fin 5) /\
  exists k,
    nth_error (fst (calculate_stochastic flat_series flat_series flat_series
                      14 3)) 13 = Some k /\
    ~ k =f= Fin 50.
Proof.
  split; [reflexivity|]. split; [reflexivity|].
  exists NaN. split; [reflexivity|]. simpl. tauto.
Qed.

(** C2, amended.  At a bar where the 14-bar highest high equals the 14-bar
    lowest low, %K is not a finite number: it is NaN when the close sits at
    that level, plus infinity when the close is above it and minus infinity
    when it is below; for the NaN the scorer gives the stochastic sub-score
    its neutral 50. *)
Theorem zero_range_stochastic (high low close : Series) (t : nat) (h l c : Q) :
  nth_error (rolling 14 agg_max high) t = Some (Fin h) ->
  nth_error (rolling 14 agg_min low) t = Some (Fin l) ->
  nth_error close t = Some (Fin c) ->
  h == l ->
  exists k,
    nth_error (fst (calculate_stochastic high low close 14 3)) t = Some k /\
    ~ is_finite k /\
    (c == l -> k = NaN /\ forall d, stoch_signal k d = 50%Z) /\
    (l < c -> k = PInf) /\
    (c < l -> k = NInf).
Proof.
  intros Hh Hl Hc Hhl.
  exists (fmul (Fin 100) (fdiv (fsub (Fin c) (Fin l)) (fsub (Fin h) (Fin l)))).
  split.
  - cbn [calculate_stochastic fst].
    apply map_nth_error.
    apply zip_with_nth_error; apply zip_with_nth_error; assumption.
  - cbn [fsub fneg fadd fdiv].
    destruct (Qcompare_spec (h + - l) 0) as [_|H|H]; try lra.
    destruct (Qcompare_spec (c + - l) 0) as [H|H|H]; simpl.
    + split; [tauto|]. split; [intros _; split; reflexivity|].
      split; intros Hcl; lra.
    + split; [tauto|]. split; [intros Hcl; lra|].
      split; [intros Hcl; lra|reflexivity].
    + split; [tauto|]. split; [intros Hcl; lra|].
      split; [reflexivity|intros Hcl; lra].
Qed.

Lemma zero_range_stochastic_witness :
  (exists k,
     nth_error (fst (calculate_stochastic flat_series flat_series flat_series
                       14 3)) 13 = Some k /\
     k = NaN /\ forall d, stoch_signal k d = 50%Z) /\
  (exists k,
     nth_error (fst (calculate_stochastic flat_series flat_series
                       (repeat (Fin 6) 14) 14 3)) 13 = Some k /\
     k = PInf) /\
  (exists k,
     nth_error (fst (calculate_stochastic flat_series flat_series
                       (repeat (Fin 4) 14) 14 3)) 13 = Some k /\
     k = NInf).
Proof.
  split; [|split].
  - destruct (zero_range_stochastic flat_series flat_series flat_series
                13 5 5 5) as (k & Hk & _ & Hnan & _);
      try reflexivity.
    exists k. split; [exact Hk|]. apply Hnan. reflexivity.
  - destruct (zero_range_stochastic flat_series flat_series
                (repeat (Fin 6) 14) 13 5 5 6) as (k & Hk & _ & _ & Hp & _);
      try reflexivity.
    exists k. split; [exact Hk|]. apply Hp. reflexivity.
  - destruct (zero_range_stochastic flat_series flat_series
                (repeat (Fin 4) 14) 13 5 5 4) as (k & Hk & _ & _ & _ & Hn);
      try reflexivity.
    exists k. split; [exact Hk|]. apply Hn. reflexivity.
Defined.

(** ** Rolling windows over finite series *)

Lemma finite_values_map_Fin (qs : list Q) : finite_values (map Fin qs) = Some qs.
Proof.
  induction qs as [|q r IH]; simpl; [reflexivity|]. now rewrite IH.
Qed.

(** The value of a rolling aggregate at position [t], from the history up
    to [t]. *)
Lemma rolling_scan_nth (w : nat) (agg : list Q -> float64) (xs : Series) :
  forall (h : Series) (t : nat),
    (t < length xs)%nat ->
    nth_error (scan (rolling_step w agg) h xs) t
    = Some (let hist := rev (firstn (S t) xs) ++ h in
            if (w <=? length hist)%nat then
              match finite_values (rev (firstn w hist)) with
              | Some qs => agg qs
              | None => NaN
              end
            else NaN).
Proof.
  induction xs as [|x r IH]; intros h t Ht; [simpl in Ht; lia|].
  destruct t as [|t].
  - reflexivity.
  - cbn [scan rolling_step nth_error]. rewrite IH by (simpl in Ht; lia).
    cbn zeta. change (firstn (S (S t)) (x :: r)) with (x :: firstn (S t) r).
    cbn [rev]. now rewrite <- app_assoc.
Qed.



Lemma fold_Qplus_nonneg (qs : list Q) :
  Forall (fun q => 0 <= q) qs -> forall a, a <= fold_left Qplus qs a.
Proof.
  induction 1 as [|q r Hq _ IH]; intros a; simpl; [lra|].
  specialize (IH (a + q)). lra.
Qed.




(** ** RSI on a rising series *)






(** A flat series has zero gain and zero loss: RS is 0/0 and RSI is NaN, so
    the rise has to be strict. *)
Lemma rsi_flat_is_nan :
  nth_error (calculate_rsi (map Fin (repeat 5 15)) 14) 14 = Some NaN.
Proof. reflexivity. Qed.



(** ** Exponential moving averages *)

Lemma ewm_alpha_span (span : Z) :
  (1 <= span)%Z -> ewm_alpha span == 2 / (inject_Z span + 1).
Proof.
  intros H. unfold ewm_alpha, ewm_com.
  assert (Hs : 1 <= inject_Z span).
  { change 1 with (inject_Z 1). now rewrite <- Zle_Qle. }
  field. repeat split; lra.
Qed.

Lemma map_inf_to_nan_Fin (qs : list Q) : map inf_to_nan (map Fin qs) = map Fin qs.
Proof. rewrite map_map. reflexivity. Qed.

Lemma ewm_mean_finite (span : Z) (qs : list Q) :
  ewm_mean span (map Fin qs) = ewm_pass span (map Fin qs).
Proof. unfold ewm_mean. now rewrite map_inf_to_nan_Fin. Qed.

Lemma ewm_scan_finite (com alpha alpha' : Q) (qs : list Q) :
  alpha == alpha' ->
  forall (e : Q) (n : nat),
    (1 <= n)%nat ->
    exists es,
      scan (ewm_step com alpha) (mk_ewm (Fin e) 1 n) (map Fin qs) = map Fin es /\
      ema_from alpha' e qs es.
Proof.
  intros Ha. induction qs as [|q r IH]; intros e n Hn.
  - exists []. split; [reflexivity|exact I].
  - cbn [map scan ewm_step weighted old_wt nobs notna].
    set (new_wt := if Qeq_bool com 1 then 1 - 1 * (1 - alpha) else alpha).
    assert (Hnew : new_wt == alpha).
    { unfold new_wt. destruct (Qeq_bool com 1); ring. }
    clearbody new_wt.
    set (e1 := if fne (Fin e) (Fin q)
               then fdiv (fadd (fmul (Fin (1 * (1 - alpha))) (Fin e))
                               (fmul (Fin new_wt) (Fin q)))
                         (Fin (1 * (1 - alpha) + new_wt))
               else Fin e).
    assert (He1 : exists e', e1 = Fin e' /\ e' == alpha' * q + (1 - alpha') * e).
    { unfold e1. cbn [fne fmul fadd fdiv].
      destruct (Qcompare_spec e q) as [Heq|Hlt|Hgt].
      - exists e. split; [reflexivity|]. rewrite <- Heq. ring.
      - destruct (Qcompare_spec (1 * (1 - alpha) + new_wt) 0) as [H|H|H];
          try lra; eexists; (split; [reflexivity|]);
          rewrite <- Ha, Hnew; field; lra.
      - destruct (Qcompare_spec (1 * (1 - alpha) + new_wt) 0) as [H|H|H];
          try lra; eexists; (split; [reflexivity|]);
          rewrite <- Ha, Hnew; field; lra. }
    destruct He1 as (e' & -> & He').
    destruct (IH e' (n + 1)%nat) as (es & Hes & Hrec); [lia|].
    exists (e' :: es). split.
    + cbn [map]. f_equal.
      * unfold ewm_out. cbn [nobs weighted].
        destruct (Nat.leb_spec 1 (n + 1)); [reflexivity|lia].
      * exact Hes.
    + split; assumption.
Qed.

Lemma ema_from_length (alpha e : Q) (qs es : list Q) :
  ema_from alpha e qs es -> length es = length qs.
Proof.
  revert e es. induction qs as [|q r IH]; intros e [|e' es] H; simpl in *;
    try contradiction; [reflexivity|].
  destruct H as [_ H]. f_equal. eapply IH, H.
Qed.

Lemma ema_from_recurrence (alpha : Q) (qs : list Q) :
  forall (q0 e0 : Q) (es : list Q) (t : nat) (x e e' : float64),
    ema_from alpha e0 qs es ->
    nth_error (map Fin (q0 :: qs)) (S t) = Some x ->
    nth_error (map Fin (e0 :: es)) t = Some e ->
    nth_error (map Fin (e0 :: es)) (S t) = Some e' ->
    e' =f= fadd (fmul (Fin alpha) x) (fmul (Fin (1 - alpha)) e).
Proof.
  induction qs as [|q r IH]; intros q0 e0 es t x e e' Hrec Hx He He'.
  - destruct t; discriminate.
  - destruct es as [|e1 es]; [contradiction|]. destruct Hrec as [H1 Hrec].
    destruct t as [|t].
    + simpl in Hx, He, He'. inversion Hx; inversion He; inversion He'; subst.
      simpl. exact H1.
    + apply (IH q e1 es t x e e' Hrec); assumption.
Qed.

(** [ewm(span, adjust=False).mean()] of a finite series is a finite series
    that obeys the EMA recurrence with [alpha = 2 / (span + 1)]. *)
Lemma ewm_mean_recurrence (span : Z) (qs : list Q) :
  (1 <= span)%Z ->
  exists es,
    ewm_mean span (map Fin qs) = map Fin es /\
    ema_recurrence (2 / (inject_Z span + 1)) (map Fin qs) (map Fin es).
Proof.
  intros Hspan. destruct qs as [|q0 r].
  - exists []. split; [reflexivity|]. split; [reflexivity|].
    split; [intros x e H; discriminate H|intros t x e e' H; discriminate H].
  - destruct (ewm_scan_finite (ewm_com span) (ewm_alpha span)
                (2 / (inject_Z span + 1)) r
                (ewm_alpha_span span Hspan) q0 1 (le_n 1)) as (es & Hes & Hrec).
    exists (q0 :: es). split.
    + rewrite ewm_mean_finite. cbn [map ewm_pass notna]. rewrite Hes.
      reflexivity.
    + split; [|split].
      * rewrite !length_map. simpl. f_equal. eapply ema_from_length, Hrec.
      * intros x e Hx He. simpl in Hx, He. inversion Hx; inversion He.
        simpl. reflexivity.
      * intros t x e e'. apply ema_from_recurrence. exact Hrec.
Qed.

Lemma zip_fsub_finite (xs ys : list Q) :
  exists ms, zip_with fsub (map Fin xs) (map Fin ys) = map Fin ms.
Proof.
  revert ys. induction xs as [|x r IH]; intros [|y ys];
    try (exists []; reflexivity).
  destruct (IH ys) as [ms Hms]. exists ((x + - y) :: ms).
  simpl. now rewrite Hms.
Qed.

(** C6.  On a series of finite prices [ewm(span, adjust=False).mean()]
    obeys EMA[0] = price[0] and
    EMA[t] = alpha * price[t] + (1 - alpha) * EMA[t-1] with
    alpha = 2/(span+1); so do the three EMAs inside [calculate_macd]
    (spans 12 and 26 on the prices, span 9 on the MACD line); and the
    prices 10, 12, 14, 16, 18 with span 3 give 10, 11, 12.5, 14.25,
    16.125. *)
Theorem ema_recurrence_holds (span : Z) (qs : list Q) :
  (1 <= span)%Z ->
  let prices := map Fin qs in
  ema_recurrence (2 / (inject_Z span + 1)) prices (ewm_mean span prices) /\
  (let '(macd_line, signal_line, _) := calculate_macd prices 12 26 9 in
   macd_line = zip_with fsub (ewm_mean 12 prices) (ewm_mean 26 prices) /\
   ema_recurrence (2 / (12 + 1)) prices (ewm_mean 12 prices) /\
   ema_recurrence (2 / (26 + 1)) prices (ewm_mean 26 prices) /\
   ema_recurrence (2 / (9 + 1)) macd_line signal_line) /\
  series_eq (ewm_mean 3 (map Fin [10; 12; 14; 16; 18]))
            (map Fin [10; 11; 12.5; 14.25; 16.125]).
Proof.
  intros Hspan prices. subst prices. split; [|split].
  - destruct (ewm_mean_recurrence span qs Hspan) as (es & -> & H). exact H.
  - cbn [calculate_macd]. split; [reflexivity|].
    destruct (ewm_mean_recurrence 12 qs) as (e12 & E12 & H12); [lia|].
    destruct (ewm_mean_recurrence 26 qs) as (e26 & E26 & H26); [lia|].
    split; [rewrite E12; exact H12|]. split; [rewrite E26; exact H26|].
    rewrite E12, E26.
    destruct (zip_fsub_finite e12 e26) as [ms ->].
    destruct (ewm_mean_recurrence 9 ms) as (e9 & -> & H9); [lia|]. exact H9.
  - vm_compute. repeat (apply Forall2_cons; [reflexivity|]). apply Forall2_nil.
Qed.

Lemma ema_recurrence_holds_witness :
  let prices := map Fin [10; 12; 14; 16; 18] in
  ema_recurrence (2 / (inject_Z 3 + 1)) prices (ewm_mean 3 prices) /\
  (let '(macd_line, signal_line, _) := calculate_macd prices 12 26 9 in
   macd_line = zip_with fsub (ewm_mean 12 prices) (ewm_mean 26 prices) /\
   ema_recurrence (2 / (12 + 1)) prices (ewm_mean 12 prices) /\
   ema_recurrence (2 / (26 + 1)) prices (ewm_mean 26 prices) /\
   ema_recurrence (2 / (9 + 1)) macd_line signal_line) /\
  series_eq (ewm_mean 3 (map Fin [10; 12; 14; 16; 18]))
            (map Fin [10; 11; 12.5; 14.25; 16.125]).
Proof.
  apply (ema_recurrence_holds 3 [10; 12; 14; 16; 18]). lia.
Defined.

(** ** On-balance volume *)

Lemma fsign_Fin (a : Q) : fsign (Fin a) = Fin (Qsign a).
Proof. unfold fsign, Qsign. destruct (a ?= 0); reflexivity. Qed.

Lemma obv_scan_sum (cs : list Q) :
  forall (vs : list Q) (prev acc acc' : Q),
    acc == acc' ->
    series_eq
      (scan cumsum_step (Fin acc)
         (fillna (Fin 0)
            (zip_with fmul (map fsign (scan diff_step (Fin prev) (map Fin cs)))
               (map Fin vs))))
      (map Fin (obv_sum_from acc' prev cs vs)).
Proof.
  induction cs as [|c r IH]; intros vs prev acc acc' Hacc.
  - constructor.
  - destruct vs as [|v vs]; [constructor|].
    cbn [map scan diff_step fsub fneg fadd zip_with fillna obv_sum_from].
    rewrite fsign_Fin.
    cbn [fmul notna cumsum_step scan fadd map].
    constructor.
    + simpl. unfold Qminus. now rewrite Hacc.
    + apply IH. unfold Qminus. now rewrite Hacc.
Qed.

(** C7.  On finite closes and volumes the OBV column is the running sum of
    sign(close[t] - close[t-1]) * volume[t], the first bar adding 0; the
    closes 100, 102, 101, 105 with volumes of 1000 give 0, 1000, 0, 1000. *)
Theorem obv_is_signed_volume_sum (closes volumes : list Q) :
  series_eq (obv (map Fin closes) (map Fin volumes))
            (map Fin (obv_sum closes volumes)) /\
  series_eq (obv (map Fin [100; 102; 101; 105])
                 (map Fin [1000; 1000; 1000; 1000]))
            (map Fin [0; 1000; 0; 1000]).
Proof.
  split.
  - unfold obv, cumsum, series_eq.
    destruct closes as [|c cs]; [constructor|].
    destruct volumes as [|v vs]; [constructor|].
    cbn [map diff fsign zip_with fmul fillna notna scan cumsum_step fadd
         obv_sum].
    constructor; [simpl; lra|].
    apply obv_scan_sum. lra.
  - vm_compute. repeat (apply Forall2_cons; [reflexivity|]). apply Forall2_nil.
Qed.

(** * Further properties of the engine *)

(** ** Shape of the frame *)

Lemma diff_length (xs : Series) : length (diff xs) = length xs.
Proof. destruct xs; simpl; [reflexivity|]. now rewrite scan_length. Qed.

Lemma rolling_length w agg (xs : Series) : length (rolling w agg xs) = length xs.
Proof. apply scan_length. Qed.

Lemma ewm_mean_length span (xs : Series) : length (ewm_mean span xs) = length xs.
Proof.
  unfold ewm_mean. rewrite <- (length_map inf_to_nan xs).
  destruct (map inf_to_nan xs); simpl; [reflexivity|]. now rewrite scan_length.
Qed.

Lemma calculate_rsi_length (prices : Series) (period : nat) :
  length (calculate_rsi prices period) = length prices.
Proof.
  unfold calculate_rsi, rsi_gain, rsi_loss, where_.
  rewrite length_map, zip_with_length, !rolling_length, !length_map,
    diff_length. lia.
Qed.

Lemma calculate_macd_length (prices : Series) (fast slow signal : Z) :
  let '(m, s, h) := calculate_macd prices fast slow signal in
  length m = length prices /\ length s = length prices /\
  length h = length prices.
Proof.
  cbn [calculate_macd].
  rewrite !zip_with_length, !ewm_mean_length, !zip_with_length,
    !ewm_mean_length. lia.
Qed.

Lemma calculate_stochastic_length (high low close : Series) (kp dp : nat) :
  length high = length close -> length low = length close ->
  let '(k, d) := calculate_stochastic high low close kp dp in
  length k = length close /\ length d = length close.
Proof.
  intros Hh Hl. cbn [calculate_stochastic].
  rewrite rolling_length, length_map, !zip_with_length, !rolling_length. lia.
Qed.

Lemma obv_length (close volume : Series) :
  length volume = length close -> length (obv close volume) = length close.
Proof.
  intros H. unfold obv, cumsum, fillna.
  rewrite scan_length, length_map, zip_with_length, length_map, diff_length.
  lia.
Qed.

Lemma imap_map_const {A B C : Type} (f : nat -> A -> B) (g : B -> C)
  (h : A -> C) (l : list A) :
  (forall i x, g (f i x) = h x) -> forall i, map g (imap f i l) = map h l.
Proof.
  intros H. induction l as [|x r IH]; intros i; simpl; [reflexivity|].
  now rewrite H, IH.
Qed.

Lemma at_nth_error (xs : Series) (t : nat) (x : float64) :
  nth_error xs t = Some x -> at_ xs t = x.
Proof. intros H. unfold at_. now apply nth_error_nth. Qed.

Lemma at_beyond (xs : Series) (t : nat) :
  (length xs <= t)%nat -> at_ xs t = NaN.
Proof. intros H. unfold at_. now apply nth_overflow. Qed.

(** The row the engine builds at position [t]. *)
Lemma indicator_frame_row (sqrtQ : Q -> Q) (bars : PriceSeries) (t : nat)
  (r : Row) :
  nth_error (indicator_frame sqrtQ bars) t = Some r ->
  exists b,
    nth_error bars t = Some b /\
    r = mkRow b
          (at_ (col_MA 5 bars) t) (at_ (col_MA 20 bars) t)
          (at_ (col_MA 60 bars) t) (at_ (col_MA 120 bars) t)
          (at_ (col_RSI bars) t)
          (at_ (col_MACD bars) t) (at_ (col_MACD_Signal bars) t)
          (at_ (col_MACD_Hist bars) t)
          (at_ (col_Stoch_K bars) t) (at_ (col_Stoch_D bars) t)
          (at_ (col_OBV bars) t)
          (at_ (col_BB_Middle bars) t) (at_ (col_BB_Std sqrtQ bars) t)
          (at_ (col_BB_Upper sqrtQ bars) t) (at_ (col_BB_Lower sqrtQ bars) t).
Proof.
  intros H. destruct (nth_error bars t) as [b|] eqn:Eb.
  - exists b. split; [reflexivity|].
    unfold indicator_frame in H.
    rewrite (imap_nth_error _ bars 0 t b Eb) in H. now inversion H.
  - apply nth_error_None in Eb.
    assert (Hl : (t < length (indicator_frame sqrtQ bars))%nat).
    { apply nth_error_Some. now rewrite H. }
    unfold indicator_frame in Hl. rewrite imap_length in Hl. lia.
Qed.

(** X1.  The frame has one row per bar, in the same order and carrying that
    bar, and every derived column has one entry per bar. *)
Theorem frame_rows_match_bars (sqrtQ : Q -> Q) (bars : PriceSeries) :
  length (indicator_frame sqrtQ bars) = length bars /\
  map bar (indicator_frame sqrtQ bars) = bars /\
  Forall (fun col : Series => length col = length bars)
    [ col_MA 5 bars; col_MA 20 bars; col_MA 60 bars; col_MA 120 bars;
      col_RSI bars; col_MACD bars; col_MACD_Signal bars; col_MACD_Hist bars;
      col_Stoch_K bars; col_Stoch_D bars; col_OBV bars;
      col_BB_Middle bars; col_BB_Std sqrtQ bars; col_BB_Upper sqrtQ bars;
      col_BB_Lower sqrtQ bars ].
Proof.
  split; [apply imap_length|]. split.
  - unfold indicator_frame. rewrite (imap_map_const _ bar (fun b => b)).
    + apply map_id.
    + reflexivity.
  - pose proof (calculate_macd_length (map Close bars) 12 26 9) as Hm.
    pose proof (calculate_stochastic_length (map High bars) (map Low bars)
                  (map Close bars) 14 3) as Hs.
    destruct (calculate_macd (map Close bars) 12 26 9) as [[m s] h] eqn:Em.
    destruct (calculate_stochastic (map High bars) (map Low bars)
                (map Close bars) 14 3) as [k d] eqn:Es.
    rewrite !length_map in Hs. specialize (Hs eq_refl eq_refl).
    rewrite length_map in Hm. destruct Hm as (Hm1 & Hm2 & Hm3).
    destruct Hs as [Hk Hd].
    repeat apply Forall_cons; try apply Forall_nil;
      unfold col_MA, col_RSI, col_MACD, col_MACD_Signal, col_MACD_Hist,
        col_Stoch_K, col_Stoch_D, col_OBV, col_BB_Middle, col_BB_Std,
        col_BB_Upper, col_BB_Lower;
      rewrite ?Em, ?Es; cbn [fst snd];
      rewrite ?zip_with_length, ?length_map, ?rolling_length,
        ?calculate_rsi_length, ?length_map; try assumption; try lia.
    + rewrite obv_length; now rewrite !length_map.
    + unfold col_BB_Middle, col_BB_Std.
      rewrite !rolling_length, length_map. lia.
    + unfold col_BB_Middle, col_BB_Std.
      rewrite !rolling_length, length_map. lia.
Qed.

(** ** Rolling windows *)

(** A rolling aggregate at position [t] is NaN until [w] bars are there;
    from then on it aggregates the last [w] entries, unless one of them is
    not a finite number. *)
Lemma rolling_nth_window (w : nat) (agg : list Q -> float64) (xs : Series)
  (t : nat) :
  (t < length xs)%nat ->
  nth_error (rolling w agg xs) t
  = Some (if (w <=? S t)%nat then
            match finite_values (window w t xs) with
            | Some qs => agg qs
            | None => NaN
            end
          else NaN).
Proof.
  intros Ht. unfold rolling. rewrite rolling_scan_nth by exact Ht.
  cbn zeta. rewrite app_nil_r.
  assert (Hl : length (firstn (S t) xs) = S t).
  { rewrite length_firstn. lia. }
  rewrite length_rev, Hl, firstn_rev, rev_involutive, Hl. reflexivity.
Qed.

Lemma rolling_warm_up (w : nat) (agg : list Q -> float64) (xs : Series)
  (t : nat) :
  (S t < w)%nat -> at_ (rolling w agg xs) t = NaN.
Proof.
  intros Hw. destruct (Nat.lt_ge_cases t (length xs)) as [Ht|Ht].
  - apply at_nth_error. rewrite rolling_nth_window by exact Ht.
    destruct (Nat.leb_spec w (S t)); [lia|reflexivity].
  - apply at_beyond. now rewrite rolling_length.
Qed.

Lemma finite_values_not_finite (xs : Series) (x : float64) :
  In x xs -> ~ is_finite x -> finite_values xs = None.
Proof.
  intros Hin Hx. induction xs as [|y r IH]; [contradiction|].
  destruct Hin as [->|Hin].
  - destruct x; simpl in *; try reflexivity. now contradiction Hx.
  - simpl. destruct y; try reflexivity. now rewrite (IH Hin).
Qed.

Lemma window_In {A : Type} (w t k : nat) (xs : list A) (x : A) :
  (k < w)%nat -> (k <= t)%nat -> nth_error xs (t - k) = Some x ->
  In x (window w t xs).
Proof.
  intros Hk Hkt Hx. unfold window.
  apply (nth_error_In _ (t - k - (S t - w))).
  rewrite nth_error_skipn, nth_error_firstn.
  replace (S t - w + (t - k - (S t - w)))%nat with (t - k)%nat by lia.
  destruct (Nat.ltb_spec (t - k) (S t)); [exact Hx|lia].
Qed.

(** A bar whose window holds a missing (or infinite) entry has no value. *)
Lemma rolling_missing_in_window (w : nat) (agg : list Q -> float64)
  (xs : Series) (t k : nat) (x : float64) :
  (k < w)%nat -> (k <= t)%nat -> nth_error xs (t - k) = Some x ->
  ~ is_finite x ->
  at_ (rolling w agg xs) t = NaN.
Proof.
  intros Hk Hkt Hx Hnf. destruct (Nat.lt_ge_cases t (length xs)) as [Ht|Ht].
  - apply at_nth_error. rewrite rolling_nth_window by exact Ht.
    destruct (Nat.leb_spec w (S t)); [|reflexivity].
    now rewrite (finite_values_not_finite _ x (window_In w t k xs x Hk Hkt Hx)).
  - apply at_beyond. now rewrite rolling_length.
Qed.

Lemma window_map {A B : Type} (f : A -> B) (w t : nat) (xs : list A) :
  window w t (map f xs) = map f (window w t xs).
Proof. unfold window. now rewrite firstn_map, skipn_map. Qed.

Lemma window_length {A : Type} (w t : nat) (xs : list A) :
  (w <= S t)%nat -> (t < length xs)%nat -> length (window w t xs) = w.
Proof.
  intros Hw Ht. unfold window. rewrite length_skipn, length_firstn. lia.
Qed.

Lemma at_zip_with f (xs ys : Series) (t : nat) :
  length xs = length ys -> (t < length xs)%nat ->
  at_ (zip_with f xs ys) t = f (at_ xs t) (at_ ys t).
Proof.
  intros Hl Ht.
  destruct (nth_error xs t) as [x|] eqn:Ex;
    [|apply nth_error_None in Ex; lia].
  destruct (nth_error ys t) as [y|] eqn:Ey;
    [|apply nth_error_None in Ey; lia].
  rewrite (at_nth_error _ _ _ (zip_with_nth_error f xs ys t x y Ex Ey)).
  now rewrite (at_nth_error _ _ _ Ex), (at_nth_error _ _ _ Ey).
Qed.

Lemma at_map (f : float64 -> float64) (xs : Series) (t : nat) :
  (t < length xs)%nat -> at_ (map f xs) t = f (at_ xs t).
Proof.
  intros Ht.
  destruct (nth_error xs t) as [x|] eqn:Ex;
    [|apply nth_error_None in Ex; lia].
  rewrite (at_nth_error _ _ _ (map_nth_error f t xs Ex)).
  now rewrite (at_nth_error _ _ _ Ex).
Qed.

Lemma fadd_NaN_r x : fadd x NaN = NaN.
Proof. now destruct x. Qed.

Lemma fsub_NaN_r x : fsub x NaN = NaN.
Proof. now destruct x. Qed.

Lemma fdiv_NaN_r x : fdiv x NaN = NaN.
Proof. now destruct x. Qed.

Lemma fmul_NaN_r x : fmul x NaN = NaN.
Proof. now destruct x. Qed.

(** %K before its window is full. *)
Lemma stoch_k_warm_up (high low close : Series) (t : nat) :
  length high = length close -> length low = length close ->
  (t < 13)%nat ->
  at_ (fst (calculate_stochastic high low close 14 3)) t = NaN.
Proof.
  intros Hh Hl Ht. cbn [calculate_stochastic fst].
  destruct (Nat.lt_ge_cases t (length close)) as [Hlen|Hlen].
  - rewrite at_map
      by (rewrite !zip_with_length, !rolling_length; lia).
    rewrite at_zip_with
      by (rewrite ?zip_with_length, ?rolling_length; lia).
    rewrite (at_zip_with fsub close)
      by (rewrite ?rolling_length; lia).
    rewrite (rolling_warm_up 14 agg_min low t) by lia.
    now rewrite fsub_NaN_r.
  - apply at_beyond.
    rewrite length_map, !zip_with_length, !rolling_length. lia.
Qed.

(** X2.  Until its window is full a windowed field is missing: the first 4 bars
    of MA_5, 19 of MA_20 and of the Bollinger fields, 59 of MA_60, 119 of
    MA_120, 13 of RSI and of %K, and 15 of %D, whatever the prices are. *)
Theorem windowed_fields_warm_up (sqrtQ : Q -> Q) (bars : PriceSeries)
  (t : nat) (r : Row) :
  nth_error (indicator_frame sqrtQ bars) t = Some r ->
  ((t < 4)%nat -> MA_5 r = NaN) /\
  ((t < 19)%nat ->
   MA_20 r = NaN /\ BB_Middle r = NaN /\ BB_Std r = NaN /\
   BB_Upper r = NaN /\ BB_Lower r = NaN) /\
  ((t < 59)%nat -> MA_60 r = NaN) /\
  ((t < 119)%nat -> MA_120 r = NaN) /\
  ((t < 13)%nat -> RSI r = NaN /\ Stoch_K r = NaN) /\
  ((t < 15)%nat -> Stoch_D r = NaN).
Proof.
  intros Hr. destruct (indicator_frame_row sqrtQ bars t r Hr) as (b & Hb & ->).
  assert (Ht : (t < length bars)%nat) by (apply nth_error_Some; now rewrite Hb).
  cbn [MA_5 MA_20 MA_60 MA_120 RSI Stoch_K Stoch_D BB_Middle BB_Std BB_Upper
       BB_Lower].
  split; [|split; [|split; [|split; [|split]]]]; intros Hw;
    [|split; [|split; [|split; [|split]]]| | |split|].
  - apply rolling_warm_up. lia.
  - apply rolling_warm_up. lia.
  - apply rolling_warm_up. lia.
  - apply rolling_warm_up. lia.
  - unfold col_BB_Upper.
    rewrite at_zip_with; unfold col_BB_Middle, col_BB_Std;
      rewrite ?length_map, ?rolling_length, ?length_map; try lia.
    now rewrite (rolling_warm_up 20 agg_mean) by lia.
  - unfold col_BB_Lower.
    rewrite at_zip_with; unfold col_BB_Middle, col_BB_Std;
      rewrite ?length_map, ?rolling_length, ?length_map; try lia.
    now rewrite (rolling_warm_up 20 agg_mean) by lia.
  - apply rolling_warm_up. lia.
  - apply rolling_warm_up. lia.
  - unfold col_RSI, calculate_rsi.
    rewrite at_map
      by (unfold rsi_gain, rsi_loss, where_;
          rewrite zip_with_length, !rolling_length, !length_map, diff_length,
            length_map; lia).
    rewrite at_zip_with
      by (unfold rsi_gain, rsi_loss, where_;
          rewrite ?rolling_length, ?length_map, ?diff_length, ?length_map; lia).
    unfold rsi_gain at 1. now rewrite rolling_warm_up by lia.
  - apply stoch_k_warm_up; rewrite ?length_map; try reflexivity. lia.
  - unfold col_Stoch_D. cbn [calculate_stochastic snd].
    set (ks := map (fmul (Fin 100)) _).
    assert (Hks : ks = fst (calculate_stochastic (map High bars)
                              (map Low bars) (map Close bars) 14 3))
      by reflexivity.
    assert (Hkl : length ks = length bars).
    { rewrite Hks.
      pose proof (calculate_stochastic_length (map High bars) (map Low bars)
                    (map Close bars) 14 3) as H.
      destruct (calculate_stochastic _ _ _ 14 3) as [k d].
      rewrite !length_map in H. now destruct (H eq_refl eq_refl). }
    destruct (Nat.lt_ge_cases t 2) as [Hsmall|Hbig].
    + apply rolling_warm_up. lia.
    + apply (rolling_missing_in_window 3 agg_mean ks t 2 NaN); try lia;
        [|simpl; tauto].
      assert (Hk : at_ ks (t - 2) = NaN).
      { rewrite Hks. apply stoch_k_warm_up; rewrite ?length_map; try reflexivity.
        lia. }
      destruct (nth_error ks (t - 2)) as [x|] eqn:Ex;
        [|apply nth_error_None in Ex; lia].
      now rewrite (at_nth_error _ _ _ Ex) in Hk; subst x.
Qed.

Lemma windowed_fields_warm_up_witness :
  exists r,
    nth_error (indicator_frame sqrt_approx [flat_bar 7 1; flat_bar 8 2]) 1
    = Some r /\
    (((1 < 4)%nat -> MA_5 r = NaN) /\
     ((1 < 19)%nat ->
      MA_20 r = NaN /\ BB_Middle r = NaN /\ BB_Std r = NaN /\
      BB_Upper r = NaN /\ BB_Lower r = NaN) /\
     ((1 < 59)%nat -> MA_60 r = NaN) /\
     ((1 < 119)%nat -> MA_120 r = NaN) /\
     ((1 < 13)%nat -> RSI r = NaN /\ Stoch_K r = NaN) /\
     ((1 < 15)%nat -> Stoch_D r = NaN)).
Proof.
  eexists. split; [reflexivity|].
  apply (windowed_fields_warm_up sqrt_approx [flat_bar 7 1; flat_bar 8 2] 1).
  reflexivity.
Defined.

(** ** Values of the windowed indicators *)

Lemma finite_values_In (xs : Series) (qs : list Q) :
  finite_values xs = Some qs -> xs = map Fin qs.
Proof.
  revert qs. induction xs as [|x r IH]; intros qs H; simpl in H.
  - now inversion H.
  - destruct x; try discriminate.
    destruct (finite_values r) as [qs'|]; [|discriminate].
    inversion H; subst. simpl. now rewrite (IH qs' eq_refl).
Qed.

Lemma Forall_window_of {A : Type} (P : A -> Prop) (w t : nat) (xs : list A) :
  Forall P xs -> Forall P (window w t xs).
Proof.
  intros H. unfold window. apply Forall_forall. intros x Hx.
  apply In_skipn in Hx. rewrite Forall_forall in H. apply H.
  rewrite <- (firstn_skipn (S t) xs). apply in_or_app. now left.
Qed.

Lemma Qlen_pos (qs : list Q) : qs <> [] -> 0 < Qlen qs.
Proof.
  destruct qs as [|q r]; [contradiction|]. intros _. apply pos_of_nat_S.
Qed.

Lemma Qsum_bounds (lo hi : Q) (qs : list Q) :
  Forall (fun q => lo <= q <= hi) qs ->
  forall a,
    a + lo * Qlen qs <= fold_left Qplus qs a /\
    fold_left Qplus qs a <= a + hi * Qlen qs.
Proof.
  unfold Qlen.
  induction 1 as [|q r Hq _ IH]; intros a.
  - simpl. unfold inject_Z. lra.
  - cbn [fold_left]. specialize (IH (a + q)).
    change (length (q :: r)) with (S (length r)).
    rewrite Nat2Z.inj_succ. unfold Z.succ. rewrite inject_Z_plus.
    change (inject_Z 1) with 1. lra.
Qed.

(** The mean of a window of numbers between two bounds lies between them. *)
Lemma agg_mean_bounds (lo hi : Q) (qs : list Q) :
  Forall (fun q => lo <= q <= hi) qs ->
  agg_mean qs = NaN \/ exists m, agg_mean qs = Fin m /\ lo <= m <= hi.
Proof.
  intros H. destruct qs as [|q r] eqn:E; [now left|]. right.
  rewrite <- E in *. assert (Hne : qs <> []) by (subst; discriminate).
  pose proof (Qlen_pos qs Hne) as Hn.
  destruct (Qsum_bounds lo hi qs H 0) as [Hlo Hhi].
  exists (Qsum qs / Qlen qs). split; [subst; reflexivity|]. split.
  - apply Qle_shift_div_l; [exact Hn|]. unfold Qsum. lra.
  - apply Qle_shift_div_r; [exact Hn|]. unfold Qsum. lra.
Qed.

(** X3.  The moving average of finite closes: from bar [w-1] on it is the sum of
    the last [w] closes divided by [w]. *)
Theorem moving_average_is_window_mean (w t : nat) (bars : PriceSeries)
  (qs : list Q) :
  map Close bars = map Fin qs ->
  (1 <= w)%nat -> (w <= S t)%nat -> (t < length bars)%nat ->
  at_ (col_MA w bars) t
  = Fin (Qsum (window w t qs) / inject_Z (Z.of_nat w)).
Proof.
  intros Hc Hw1 Hw Ht. unfold col_MA. rewrite Hc.
  assert (Hlen : length qs = length bars).
  { rewrite <- (length_map Fin qs), <- Hc. apply length_map. }
  apply at_nth_error.
  rewrite rolling_nth_window by (rewrite length_map; lia).
  destruct (Nat.leb_spec w (S t)); [|lia].
  rewrite window_map, finite_values_map_Fin.
  assert (Hwl : length (window w t qs) = w) by (apply window_length; lia).
  unfold agg_mean, Qlen. rewrite Hwl.
  destruct (window w t qs); [simpl in Hwl; lia|reflexivity].
Qed.

Lemma moving_average_is_window_mean_witness :
  at_ (col_MA 2 bars_a) 2
  = Fin (Qsum (window 2 2 [100; 102; 101]) / inject_Z (Z.of_nat 2)).
Proof.
  apply (moving_average_is_window_mean 2 2 bars_a [100; 102; 101]);
    [reflexivity|lia|lia|simpl; lia].
Defined.

Lemma rolling_mean_nonneg (w : nat) (xs : Series) (t : nat) (x : float64) :
  Forall nonneg_or_missing xs ->
  nth_error (rolling w agg_mean xs) t = Some x ->
  x = NaN \/ exists q, x = Fin q /\ 0 <= q.
Proof.
  intros Hall Hx.
  assert (Ht : (t < length xs)%nat).
  { rewrite <- (rolling_length w agg_mean). apply nth_error_Some.
    now rewrite Hx. }
  rewrite rolling_nth_window in Hx by exact Ht. inversion Hx as [Hv]; clear Hx.
  destruct (w <=? S t)%nat; [|now left].
  destruct (finite_values (window w t xs)) as [qs|] eqn:Ef; [|now left].
  apply finite_values_In in Ef.
  assert (Hq : Forall (fun q => 0 <= q) qs).
  { pose proof (Forall_window_of _ w t xs Hall) as Hw. rewrite Ef in Hw.
    rewrite Forall_forall in *. intros q Hin.
    apply (Hw (Fin q)). now apply in_map. }
  destruct qs as [|q0 r] eqn:E; [now left|]. right. rewrite <- E in *.
  assert (Hne : qs <> []) by (subst; discriminate).
  exists (Qsum qs / Qlen qs). split; [subst; reflexivity|].
  apply Qle_shift_div_l; [now apply Qlen_pos|].
  pose proof (fold_Qplus_nonneg qs Hq 0). unfold Qsum. lra.
Qed.

Lemma gains_nonneg (xs : Series) :
  Forall nonneg_or_missing (where_ (fun d => fgt d (Fin 0)) (Fin 0) xs).
Proof.
  unfold where_. apply Forall_forall. intros y Hy. apply in_map_iff in Hy.
  destruct Hy as [d [<- _]]. unfold fgt.
  destruct d as [| | |q]; simpl; try lra; try exact I.
  destruct (Qcompare_spec 0 q); simpl; lra.
Qed.

Lemma losses_nonneg (xs : Series) :
  Forall nonneg_or_missing
    (map fneg (where_ (fun d => flt d (Fin 0)) (Fin 0) xs)).
Proof.
  unfold where_. rewrite map_map. apply Forall_forall. intros y Hy.
  apply in_map_iff in Hy. destruct Hy as [d [<- _]].
  destruct d as [| | |q]; simpl; try lra; try exact I.
  destruct (Qcompare_spec q 0); simpl; lra.
Qed.

Lemma rsi_formula_range (g l : float64) :
  (g = NaN \/ exists a, g = Fin a /\ 0 <= a) ->
  (l = NaN \/ exists b, l = Fin b /\ 0 <= b) ->
  in_percent_range (fsub (Fin 100) (fdiv (Fin 100) (fadd (Fin 1) (fdiv g l)))).
Proof.
  intros [->|(a & -> & Ha)] [->|(b & -> & Hb)]; try (now left).
  unfold fdiv at 2.
  destruct (Qcompare_spec b 0) as [Hb0|Hb0|Hb0]; try lra.
  - destruct (Qcompare_spec a 0) as [Ha0|Ha0|Ha0]; try lra; [now left|].
    right. exists (100 + - 0). split; [reflexivity|lra].
  - assert (Hrs : 0 <= a / b) by (apply Qle_shift_div_l; lra).
    cbn [fadd fdiv].
    destruct (Qcompare_spec (1 + a / b) 0) as [H|H|H]; try lra.
    assert (H1 : 0 < 100 / (1 + a / b)) by (apply Qlt_shift_div_l; lra).
    assert (H2 : 100 / (1 + a / b) <= 100) by (apply Qle_shift_div_r; lra).
    right. eexists. split; [reflexivity|]. lra.
Qed.

(** X4.  RSI is a percentage wherever it is defined, for any price series
    (missing and infinite prices included) and any period. *)
Theorem rsi_in_percent_range (prices : Series) (period t : nat) (r : float64) :
  nth_error (calculate_rsi prices period) t = Some r -> in_percent_range r.
Proof.
  intros Hr. unfold calculate_rsi in Hr.
  rewrite nth_error_map in Hr.
  destruct (nth_error (zip_with fdiv (rsi_gain period prices)
                         (rsi_loss period prices)) t) as [rs|] eqn:Hrs;
    [|discriminate].
  simpl in Hr. inversion Hr; subst r; clear Hr.
  assert (Ht : (t < length (zip_with fdiv (rsi_gain period prices)
                              (rsi_loss period prices)))%nat).
  { apply nth_error_Some. now rewrite Hrs. }
  rewrite zip_with_length in Ht.
  destruct (nth_error (rsi_gain period prices) t) as [g|] eqn:Eg;
    [|apply nth_error_None in Eg; lia].
  destruct (nth_error (rsi_loss period prices) t) as [l|] eqn:El;
    [|apply nth_error_None in El; lia].
  rewrite (zip_with_nth_error fdiv _ _ t g l Eg El) in Hrs.
  inversion Hrs; subst rs.
  apply rsi_formula_range.
  - apply (rolling_mean_nonneg period _ t g (gains_nonneg (diff prices)) Eg).
  - apply (rolling_mean_nonneg period _ t l (losses_nonneg (diff prices)) El).
Qed.

Lemma rsi_in_percent_range_witness :
  exists r,
    nth_error
      (calculate_rsi
         (map Fin [10; 11; 12; 13; 14; 15; 16; 17; 18; 19; 20; 21; 11; 16])
         14) 13 = Some r /\
    in_percent_range r.
Proof.
  eexists. split; [reflexivity|].
  apply (rsi_in_percent_range
           (map Fin [10; 11; 12; 13; 14; 15; 16; 17; 18; 19; 20; 21; 11; 16])
           14 13).
  reflexivity.
Defined.

(** ** Stochastic oscillator and Bollinger bands *)

Lemma fold_Qmin_lower (r : list Q) :
  forall q, fold_left Qmin r q <= q /\
            forall x, In x r -> fold_left Qmin r q <= x.
Proof.
  induction r as [|a r IH]; intros q; simpl.
  - split; [lra|intros x []].
  - destruct (IH (Qmin q a)) as [H1 H2].
    pose proof (Q.le_min_l q a). pose proof (Q.le_min_r q a).
    split; [lra|]. intros x [<-|Hx]; [lra|now apply H2].
Qed.

Lemma fold_Qmax_upper (r : list Q) :
  forall q, q <= fold_left Qmax r q /\
            forall x, In x r -> x <= fold_left Qmax r q.
Proof.
  induction r as [|a r IH]; intros q; simpl.
  - split; [lra|intros x []].
  - destruct (IH (Qmax q a)) as [H1 H2].
    pose proof (Q.le_max_l q a). pose proof (Q.le_max_r q a).
    split; [lra|]. intros x [<-|Hx]; [lra|now apply H2].
Qed.

Lemma agg_min_lower (qs : list Q) (m x : Q) :
  agg_min qs = Fin m -> In x qs -> m <= x.
Proof.
  destruct qs as [|q r]; [discriminate|]. simpl. intros H Hx.
  inversion H; subst m. destruct (fold_Qmin_lower r q) as [H1 H2].
  destruct Hx as [<-|Hx]; [exact H1|now apply H2].
Qed.

Lemma agg_max_upper (qs : list Q) (m x : Q) :
  agg_max qs = Fin m -> In x qs -> x <= m.
Proof.
  destruct qs as [|q r]; [discriminate|]. simpl. intros H Hx.
  inversion H; subst m. destruct (fold_Qmax_upper r q) as [H1 H2].
  destruct Hx as [<-|Hx]; [exact H1|now apply H2].
Qed.

(** What a rolling aggregate holds at a bar: nothing, or the aggregate of
    a window of finite numbers that contains the bar's own entry. *)
Lemma rolling_at_cases (w : nat) (agg : list Q -> float64) (xs : Series)
  (t : nat) (x : Q) :
  nth_error xs t = Some (Fin x) -> (1 <= w)%nat ->
  at_ (rolling w agg xs) t = NaN \/
  exists qs, at_ (rolling w agg xs) t = agg qs /\ In x qs /\
             window w t xs = map Fin qs.
Proof.
  intros Hx Hw.
  assert (Ht : (t < length xs)%nat) by (apply nth_error_Some; now rewrite Hx).
  rewrite (at_nth_error _ _ _ (rolling_nth_window w agg xs t Ht)).
  destruct (w <=? S t)%nat; [|now left].
  destruct (finite_values (window w t xs)) as [qs|] eqn:Ef; [|now left].
  right. exists qs. apply finite_values_In in Ef.
  split; [reflexivity|]. split; [|exact Ef].
  assert (Hin : In (Fin x) (window w t xs)).
  { apply (window_In w t 0); try lia. now rewrite Nat.sub_0_r. }
  rewrite Ef in Hin. apply in_map_iff in Hin.
  destruct Hin as (y & Hy & Hin). now inversion Hy; subst.
Qed.

Lemma stoch_k_range (high low close : Series) (t : nat) (l c h : Q) :
  length high = length close -> length low = length close ->
  nth_error low t = Some (Fin l) ->
  nth_error close t = Some (Fin c) ->
  nth_error high t = Some (Fin h) ->
  l <= c -> c <= h ->
  in_percent_range (at_ (fst (calculate_stochastic high low close 14 3)) t).
Proof.
  intros Hlh Hll Hl Hc Hh Hlc Hch.
  assert (Ht : (t < length close)%nat) by (apply nth_error_Some; now rewrite Hc).
  cbn [calculate_stochastic fst].
  rewrite at_map by (rewrite !zip_with_length, !rolling_length; lia).
  rewrite at_zip_with by (rewrite ?zip_with_length, ?rolling_length; lia).
  rewrite (at_zip_with fsub close) by (rewrite ?rolling_length; lia).
  rewrite (at_zip_with fsub (rolling 14 agg_max high))
    by (rewrite ?rolling_length; lia).
  rewrite (at_nth_error _ _ _ Hc).
  destruct (rolling_at_cases 14 agg_min low t l Hl) as [->|(ql & -> & Hinl & _)];
    [lia|left; now rewrite fsub_NaN_r|].
  destruct (rolling_at_cases 14 agg_max high t h Hh) as [->|(qh & -> & Hinh & _)];
    [lia|left; now rewrite fdiv_NaN_r, fmul_NaN_r|].
  destruct (agg_min ql) as [| | |m] eqn:Em;
    try (destruct ql; discriminate).
  { left. now rewrite fsub_NaN_r. }
  destruct (agg_max qh) as [| | |M] eqn:EM;
    try (destruct qh; discriminate).
  { left. reflexivity. }
  pose proof (agg_min_lower ql m l Em Hinl) as Hml.
  pose proof (agg_max_upper qh M h EM Hinh) as HhM.
  cbn [fsub fneg fadd fdiv].
  destruct (Qcompare_spec (M + - m) 0) as [H0|H0|H0]; try lra.
  - destruct (Qcompare_spec (c + - m) 0) as [H1|H1|H1]; try lra. now left.
  - right. cbn [fmul]. eexists. split; [reflexivity|].
    assert (Hr0 : 0 <= (c + - m) / (M + - m))
      by (apply Qle_shift_div_l; lra).
    assert (Hr1 : (c + - m) / (M + - m) <= 1)
      by (apply Qle_shift_div_r; lra).
    lra.
Qed.

(** X5.  On bars whose close lies between low and high, %K and %D are
    percentages wherever they are defined. *)
Theorem stochastic_in_percent_range (sqrtQ : Q -> Q) (bars : PriceSeries)
  (t : nat) (r : Row) :
  Forall ohlc_consistent bars ->
  nth_error (indicator_frame sqrtQ bars) t = Some r ->
  in_percent_range (Stoch_K r) /\ in_percent_range (Stoch_D r).
Proof.
  intros Hall Hr.
  destruct (indicator_frame_row sqrtQ bars t r Hr) as (b & Hb & ->).
  cbn [Stoch_K Stoch_D].
  assert (HK : forall j, (j < length bars)%nat ->
                         in_percent_range (at_ (col_Stoch_K bars) j)).
  { intros j Hj.
    destruct (nth_error bars j) as [bj|] eqn:Ej;
      [|apply nth_error_None in Ej; lia].
    rewrite Forall_forall in Hall.
    destruct (Hall bj (nth_error_In _ _ Ej))
      as (l & c & h & Hl & Hc & Hh & Hlc & Hch).
    unfold col_Stoch_K.
    apply (stoch_k_range _ _ _ j l c h); rewrite ?length_map; auto.
    - rewrite nth_error_map, Ej. simpl. now rewrite Hl.
    - rewrite nth_error_map, Ej. simpl. now rewrite Hc.
    - rewrite nth_error_map, Ej. simpl. now rewrite Hh. }
  assert (Ht : (t < length bars)%nat) by (apply nth_error_Some; now rewrite Hb).
  split; [now apply HK|].
  unfold col_Stoch_D. cbn [calculate_stochastic snd].
  set (ks := map (fmul (Fin 100)) _).
  assert (Hks : ks = col_Stoch_K bars) by reflexivity.
  assert (Hkl : length ks = length bars).
  { rewrite Hks. unfold col_Stoch_K.
    pose proof (calculate_stochastic_length (map High bars) (map Low bars)
                  (map Close bars) 14 3) as H.
    destruct (calculate_stochastic _ _ _ 14 3) as [k d].
    rewrite !length_map in H. now destruct (H eq_refl eq_refl). }
  rewrite (at_nth_error _ _ _
             (rolling_nth_window 3 agg_mean ks t ltac:(lia))).
  destruct (3 <=? S t)%nat; [|now left].
  destruct (finite_values (window 3 t ks)) as [qs|] eqn:Ef; [|now left].
  apply finite_values_In in Ef.
  assert (Hq : Forall (fun q => 0 <= q <= 100) qs).
  { apply Forall_forall. intros q Hq.
    assert (Hin : In (Fin q) ks).
    { assert (Hw : In (Fin q) (window 3 t ks))
        by (rewrite Ef; now apply in_map).
      unfold window in Hw. apply In_skipn in Hw.
      rewrite <- (firstn_skipn (S t) ks). apply in_or_app. now left. }
    apply In_nth_error in Hin. destruct Hin as [j Hj].
    assert (Hjl : (j < length bars)%nat).
    { rewrite <- Hkl. apply nth_error_Some. now rewrite Hj. }
    specialize (HK j Hjl). rewrite <- Hks, (at_nth_error _ _ _ Hj) in HK.
    destruct HK as [HK|(q' & HK & Hrange)]; [discriminate|].
    now inversion HK; subst. }
  destruct (agg_mean_bounds 0 100 qs Hq) as [->|(m & -> & Hm)];
    [now left|right; eauto].
Qed.

Lemma stochastic_in_percent_range_witness :
  Forall ohlc_consistent ranging_bars /\
  exists r k d,
    nth_error (indicator_frame sqrt_approx ranging_bars) 17 = Some r /\
    Stoch_K r = Fin k /\ Stoch_D r = Fin d /\
    in_percent_range (Stoch_K r) /\ in_percent_range (Stoch_D r).
Proof.
  assert (Hbars : Forall ohlc_consistent ranging_bars).
  { repeat (apply Forall_cons;
            [do 3 eexists; repeat split; try reflexivity; discriminate|]).
    apply Forall_nil. }
  split; [exact Hbars|].
  destruct (nth_error (indicator_frame sqrt_approx ranging_bars) 17)
    as [r|] eqn:E.
  - pose proof (stochastic_in_percent_range sqrt_approx ranging_bars 17 r
                  Hbars E) as [HK HD].
    vm_compute in E. injection E as <-.
    do 3 eexists. split; [reflexivity|].
    split; [reflexivity|]. split; [reflexivity|].
    split; [exact HK|exact HD].
  - vm_compute in E. discriminate E.
Defined.




(** ** Flat prices and on-balance volume *)

Lemma Qcompare_refl (x : Q) : (x ?= x) = Eq.
Proof. apply Qeq_alt. reflexivity. Qed.

Lemma ewm_scan_constant (com alpha x : Q) (n : nat) :
  forall (ow : Q) (k : nat),
    (1 <= k)%nat ->
    scan (ewm_step com alpha) (mk_ewm (Fin x) ow k) (repeat (Fin x) n)
    = repeat (Fin x) n.
Proof.
  induction n as [|n IH]; intros ow k Hk; [reflexivity|].
  cbn [repeat scan ewm_step weighted old_wt nobs notna fne].
  rewrite Qcompare_refl. rewrite IH by lia. f_equal.
  unfold ewm_out. cbn [nobs weighted].
  destruct (Nat.leb_spec 1 (k + 1)); [reflexivity|lia].
Qed.

(** The exponentially weighted mean of a constant series is that series,
    exactly, for every span. *)
Lemma ewm_mean_constant (span : Z) (x : Q) (n : nat) :
  ewm_mean span (repeat (Fin x) n) = repeat (Fin x) n.
Proof.
  unfold ewm_mean. rewrite map_repeat. cbn [inf_to_nan].
  destruct n as [|n]; [reflexivity|].
  cbn [repeat ewm_pass notna]. now rewrite ewm_scan_constant.
Qed.

Lemma zip_fsub_repeat (x y : Q) (n : nat) :
  zip_with fsub (repeat (Fin x) n) (repeat (Fin y) n)
  = repeat (Fin (x + - y)) n.
Proof. induction n as [|n IH]; simpl; [reflexivity|]. now rewrite IH. Qed.

(** X7.  On a flat close series (one price repeated, any length) and spans of
    at least 1, the two EMAs equal the price, and the MACD line, the signal
    line and the histogram are 0 at every bar. *)
Theorem flat_series_macd_is_zero (c : Q) (n : nat) (fast slow signal : Z) :
  (1 <= fast)%Z -> (1 <= slow)%Z -> (1 <= signal)%Z ->
  let prices := repeat (Fin c) n in
  let '(macd_line, signal_line, histogram) :=
    calculate_macd prices fast slow signal in
  ewm_mean fast prices = prices /\ ewm_mean slow prices = prices /\
  length macd_line = n /\ length signal_line = n /\ length histogram = n /\
  Forall (fun x => x =f= Fin 0) macd_line /\
  Forall (fun x => x =f= Fin 0) signal_line /\
  Forall (fun x => x =f= Fin 0) histogram.
Proof.
  intros _ _ _. cbn [calculate_macd].
  rewrite !ewm_mean_constant, !zip_fsub_repeat, !ewm_mean_constant,
    !zip_fsub_repeat, !repeat_length.
  repeat split; apply Forall_forall; intros x Hx;
    apply repeat_spec in Hx; subst x; simpl; ring.
Qed.

Lemma flat_series_macd_is_zero_witness :
  let prices := repeat (Fin 5) 30 in
  let '(macd_line, signal_line, histogram) := calculate_macd prices 12 26 9 in
  ewm_mean 12 prices = prices /\ ewm_mean 26 prices = prices /\
  length macd_line = 30%nat /\ length signal_line = 30%nat /\
  length histogram = 30%nat /\
  Forall (fun x => x =f= Fin 0) macd_line /\
  Forall (fun x => x =f= Fin 0) signal_line /\
  Forall (fun x => x =f= Fin 0) histogram.
Proof.
  apply (flat_series_macd_is_zero 5 30 12 26 9); lia.
Defined.

Lemma cumsum_scan_finite (xs : Series) :
  Forall is_finite xs ->
  forall acc, Forall is_finite (scan cumsum_step (Fin acc) xs).
Proof.
  induction 1 as [|x r Hx _ IH]; intros acc; [constructor|].
  destruct x as [| | |q]; try contradiction.
  cbn [scan cumsum_step notna fadd]. constructor; [exact I|apply IH].
Qed.

Lemma obv_terms_finite (ds : Series) (vs : list Q) :
  Forall is_finite
    (fillna (Fin 0) (zip_with fmul (map fsign ds) (map Fin vs))).
Proof.
  revert vs. induction ds as [|d r IH]; intros [|v vs]; try constructor.
  - destruct d as [| | |q]; simpl; try exact I.
    destruct (q ?= 0); exact I.
  - apply IH.
Qed.

(** X9.  OBV starts at 0 whatever the data is, and with finite volumes it is
    never missing: no bar of the column is NaN, even where closes are
    missing or infinite. *)
Theorem obv_is_never_missing (close : Series) (volumes : list Q) :
  Forall (fun x => notna x = true) (obv close (map Fin volumes)) /\
  (forall volume x, nth_error (obv close volume) 0 = Some x -> x =f= Fin 0).
Proof.
  split.
  - assert (H : Forall is_finite (obv close (map Fin volumes))).
    { unfold obv, cumsum. apply cumsum_scan_finite, obv_terms_finite. }
    eapply Forall_impl; [|exact H].
    intros [| | |q] Hq; try contradiction. reflexivity.
  - intros volume x Hx.
    destruct close as [|c cs]; [discriminate|].
    destruct volume as [|v vs]; [discriminate|].
    unfold obv, cumsum in Hx.
    cbn [diff map fsign zip_with fmul fillna notna scan cumsum_step fadd
         nth_error] in Hx.
    inversion Hx. simpl. lra.
Qed.

(** * Further properties of the scorer *)

(** ** When the scorer raises *)

Lemma recent_window_length_any (df : IndicatorFrame) (lookback_period : Z) :
  length (recent_window df lookback_period)
  = if (lookback_period <? 0)%Z
    then (length df - Z.to_nat (- lookback_period))%nat
    else Nat.min (length df) (Z.to_nat lookback_period).
Proof.
  destruct (Z.ltb_spec lookback_period 0) as [Hneg|Hpos].
  - unfold recent_window, tail.
    destruct (Z.ltb_spec (Z.of_nat (length df)) lookback_period); [lia|].
    destruct (Z.eqb_spec lookback_period 0); [lia|].
    destruct (Z.ltb_spec 0 lookback_period); [lia|].
    apply length_skipn.
  - destruct (Z.eq_dec lookback_period 0) as [->|Hnz].
    + unfold recent_window, tail.
      destruct (Z.ltb_spec (Z.of_nat (length df)) 0); [lia|].
      simpl. lia.
    + apply recent_window_length. lia.
Qed.

Lemma calculate_probability_None (df : IndicatorFrame) (lookback_period : Z) :
  calculate_probability df lookback_period = None
  <-> recent_window df lookback_period = [].
Proof.
  unfold calculate_probability. split.
  - intros H.
    destruct (recent_window df lookback_period) as [|r w] eqn:E;
      [reflexivity|].
    destruct (signals_of_Some (r :: w)) as [s Hs]; [discriminate|].
    rewrite Hs in H. discriminate.
  - intros ->. reflexivity.
Qed.

(** X10.  The scorer raises exactly when its window has no bar: on an empty
    frame, with lookback 0, or with a negative lookback that drops every
    row. *)
Theorem scorer_fails_iff_window_empty (df : IndicatorFrame)
  (lookback_period : Z) :
  calculate_probability df lookback_period = None
  <-> (df = [] \/ lookback_period = 0%Z \/
       (lookback_period < 0 /\ Z.of_nat (length df) <= - lookback_period)%Z).
Proof.
  rewrite calculate_probability_None.
  pose proof (recent_window_length_any df lookback_period) as Hl.
  split.
  - intros H. rewrite H in Hl. simpl in Hl.
    destruct (Z.ltb_spec lookback_period 0).
    + right. right. lia.
    + destruct df as [|r df]; [now left|]. right. left.
      simpl length in Hl. lia.
  - intros H. apply length_zero_iff_nil. rewrite Hl.
    destruct (Z.ltb_spec lookback_period 0);
      destruct H as [->|[->|[H1 H2]]]; simpl; lia.
Qed.

(** ** What the scorer reads *)

(** X11.  Rows before the trailing window do not matter: with
    [1 <= lookback_period <= length w], scoring [older ++ w] is scoring
    [w]. *)
Theorem scorer_ignores_older_rows (older w : IndicatorFrame)
  (lookback_period : Z) :
  (1 <= lookback_period <= Z.of_nat (length w))%Z ->
  calculate_probability (older ++ w) lookback_period
  = calculate_probability w lookback_period.
Proof.
  intros Hl.
  assert (Hw : recent_window (older ++ w) lookback_period
               = recent_window w lookback_period).
  { unfold recent_window, tail. rewrite length_app.
    destruct (Z.ltb_spec (Z.of_nat (length older + length w)) lookback_period);
      [lia|].
    destruct (Z.ltb_spec (Z.of_nat (length w)) lookback_period); [lia|].
    destruct (Z.eqb_spec lookback_period 0); [lia|].
    destruct (Z.ltb_spec 0 lookback_period); [|lia].
    rewrite skipn_app.
    rewrite (skipn_all2 older) by lia. simpl. f_equal. lia. }
  unfold calculate_probability. now rewrite Hw.
Qed.

Lemma scorer_ignores_older_rows_witness :
  calculate_probability ([undefined_row 1 1] ++ sample_frame) 3
  = calculate_probability sample_frame 3.
Proof.
  apply scorer_ignores_older_rows. simpl. lia.
Defined.

Lemma recent_window_whole (df : IndicatorFrame) (n : Z) :
  (Z.of_nat (length df) <= n)%Z -> recent_window df n = df.
Proof.
  intros Hn.
  destruct df as [|r df].
  { apply length_zero_iff_nil. rewrite recent_window_length_any.
    destruct (n <? 0)%Z; reflexivity. }
  unfold recent_window, tail.
  set (len := length (r :: df)) in *.
  assert (Hpos : (1 <= Z.of_nat len)%Z) by (unfold len; simpl length; lia).
  destruct (Z.ltb_spec (Z.of_nat len) n).
  - destruct (Z.eqb_spec (Z.of_nat len) 0); [lia|].
    destruct (Z.ltb_spec 0 (Z.of_nat len)); [|lia].
    now replace (len - Z.to_nat (Z.of_nat len))%nat with 0%nat by lia.
  - destruct (Z.eqb_spec n 0); [lia|].
    destruct (Z.ltb_spec 0 n); [|lia].
    now replace (len - Z.to_nat n)%nat with 0%nat by lia.
Qed.

(** X12.  A lookback longer than the frame is cut to the frame: the window is
    the whole frame and the result is the one for [len(df)]. *)
Theorem lookback_saturates (df : IndicatorFrame) (lookback_period : Z) :
  (Z.of_nat (length df) <= lookback_period)%Z ->
  recent_window df lookback_period = df /\
  calculate_probability df lookback_period
  = calculate_probability df (Z.of_nat (length df)).
Proof.
  intros Hl. split; [now apply recent_window_whole|].
  unfold calculate_probability. rewrite (recent_window_whole df _ Hl).
  rewrite (recent_window_whole df (Z.of_nat (length df))) by lia. reflexivity.
Qed.

Lemma lookback_saturates_witness :
  recent_window sample_frame 20 = sample_frame /\
  calculate_probability sample_frame 20
  = calculate_probability sample_frame (Z.of_nat (length sample_frame)).
Proof.
  apply lookback_saturates. simpl. lia.
Defined.

(** ** Weights and bounds *)

(** X14.  The volume weight is a number between 0.5 and 2, all five
    indicators contribute a weighted score, the total weight is that volume
    weight up to rounding (within [tolerance]), and so the guard
    [total_weight > 0] always holds: the fallback [final_score = 50] is
    never taken. *)
Theorem total_weight_is_positive (df : IndicatorFrame) (lookback_period : Z)
  (signals : Signals) :
  signals_of (recent_window df lookback_period) = Some signals ->
  exists vw ws total,
    np_mean (volume_weights_of (recent_window df lookback_period)) = Fin vw /\
    0.5 <= vw <= 2 /\
    weighted_totals signals
      (volume_weights_of (recent_window df lookback_period))
    = (ws, total) /\
    length ws = 5%nat /\ close_to total vw /\
    fgt total (Fin 0) = true.
Proof.
  intros Hs. set (w := recent_window df lookback_period) in *.
  assert (Hne : w <> []).
  { intros E. rewrite E, signals_of_nil in Hs. discriminate. }
  destruct (signals_of_shape _ _ Hs) as (a & b & c & d & e & -> & _).
  destruct (volume_weight_range w Hne) as [vw [Hv Hrange]].
  pose proof (volume_weights_length w Hne) as Hlen.
  exists vw. unfold weighted_totals, five_signals, indicator_weights, weigh.
  cbn [fold_left lookup String.eqb Ascii.eqb Bool.eqb fst snd app].
  destruct (Nat.ltb_spec 0 (length (volume_weights_of w))); [|lia].
  rewrite Hv. cbn [fmul fadd].
  do 2 eexists. split; [reflexivity|]. split; [exact Hrange|].
  split; [reflexivity|]. split; [reflexivity|].
  assert (Ht : 0 + 0.25 * vw + 0.25 * vw + 0.15 * vw + 0.20 * vw + 0.15 * vw
               == vw) by lra.
  split.
  - eexists. split; [reflexivity|]. unfold tolerance. split; lra.
  - unfold fgt, flt.
    match goal with |- context [0 ?= ?t] => destruct (Qcompare_spec 0 t) end;
      try reflexivity; lra.
Qed.

Lemma total_weight_is_positive_witness :
  exists vw ws total,
    np_mean (volume_weights_of (recent_window sample_frame 20)) = Fin vw /\
    0.5 <= vw <= 2 /\
    weighted_totals (five_signals 45 60 25 50 30)
      (volume_weights_of (recent_window sample_frame 20))
    = (ws, total) /\
    length ws = 5%nat /\ close_to total vw /\
    fgt total (Fin 0) = true.
Proof.
  apply (total_weight_is_positive sample_frame 20). reflexivity.
Defined.

Lemma rsi_signal_range x : (20 <= rsi_signal x <= 80)%Z.
Proof.
  unfold rsi_signal.
  repeat match goal with |- context [if ?c then _ else _] => destruct c end;
    lia.
Qed.

Lemma macd_signal_range a b c d : (25 <= macd_signal a b c d <= 75)%Z.
Proof.
  unfold macd_signal.
  repeat match goal with |- context [if ?c then _ else _] => destruct c end;
    lia.
Qed.

Lemma stoch_signal_range k d : (25 <= stoch_signal k d <= 75)%Z.
Proof.
  unfold stoch_signal.
  repeat match goal with |- context [if ?c then _ else _] => destruct c end;
    lia.
Qed.

Lemma ma_signal_range p a b : (30 <= ma_signal p a b <= 70)%Z.
Proof.
  unfold ma_signal.
  repeat match goal with |- context [if ?c then _ else _] => destruct c end;
    lia.
Qed.

Lemma obv_signal_range a b : (30 <= obv_signal a b <= 70)%Z.
Proof.
  unfold obv_signal.
  repeat match goal with |- context [if ?c then _ else _] => destruct c end;
    lia.
Qed.

Lemma signals_of_ranges (recent_df : IndicatorFrame) (s : Signals) :
  signals_of recent_df = Some s ->
  exists a b c d e,
    s = five_signals a b c d e /\
    (20 <= a <= 80)%Z /\ (25 <= b <= 75)%Z /\ (25 <= c <= 75)%Z /\
    (30 <= d <= 70)%Z /\ (30 <= e <= 70)%Z.
Proof.
  unfold signals_of. intros H.
  do 11 step_bind H. inversion H; subst s; clear H.
  do 5 eexists. split; [reflexivity|].
  repeat split; try apply rsi_signal_range; try apply macd_signal_range;
    try apply stoch_signal_range; try apply ma_signal_range;
    (destruct (1 <? length recent_df)%nat;
     [repeat step_bind E9; inversion E9; apply obv_signal_range
     |inversion E9; lia]).
Qed.

Lemma inject_Z_bounds (lo hi z : Z) :
  (lo <= z <= hi)%Z -> inject_Z lo <= inject_Z z <= inject_Z hi.
Proof. intros [H1 H2]. split; rewrite <- Zle_Qle; assumption. Qed.

(** X15.  The range of the probabilities.  The RSI sub-score lies in
    [20,80], the MACD and Stochastic sub-scores in [25,75], the MA and OBV
    sub-scores in [30,70]; so no frame can push [up_probability] or
    [down_probability] outside [25.5, 74.5], up to rounding (within
    [tolerance]).  Both ends are reached: a frame with every indicator at
    its most bullish scores 74.5, its mirror image 25.5. *)
Theorem probability_between_25_5_and_74_5 (df : IndicatorFrame)
  (lookback_period : Z) :
  df <> [] -> (1 <= lookback_period)%Z ->
  (exists up down a b c d e,
     calculate_probability df lookback_period
     = Some (Fin up, Fin down, five_signals a b c d e) /\
     (20 <= a <= 80)%Z /\ (25 <= b <= 75)%Z /\ (25 <= c <= 75)%Z /\
     (30 <= d <= 70)%Z /\ (30 <= e <= 70)%Z /\
     25.5 - tolerance <= up <= 74.5 + tolerance /\
     25.5 - tolerance <= down <= 74.5 + tolerance) /\
  (exists up down,
     calculate_probability bullish_frame 20
     = Some (Fin up, Fin down, five_signals 80 75 75 70 70) /\
     up == 74.5 /\ down == 25.5) /\
  (exists up down,
     calculate_probability bearish_frame 20
     = Some (Fin up, Fin down, five_signals 20 25 25 30 30) /\
     up == 25.5 /\ down == 74.5).
Proof.
  intros Hne Hl.
  assert (Hgen : forall f s,
             signals_of (recent_window f lookback_period) = Some s ->
             exists a b c d e up,
               s = five_signals a b c d e /\
               (20 <= a <= 80)%Z /\ (25 <= b <= 75)%Z /\ (25 <= c <= 75)%Z /\
               (30 <= d <= 70)%Z /\ (30 <= e <= 70)%Z /\
               calculate_probability f lookback_period
               = Some (Fin up, Fin (100 + - up), s) /\
               up == inject_Z a * 0.25 + inject_Z b * 0.25
                     + inject_Z c * 0.15 + inject_Z d * 0.20
                     + inject_Z e * 0.15).
  { intros f s Hs.
    destruct (signals_of_ranges _ _ Hs)
      as (a & b & c & d & e & Hshape & Ha & Hb & Hc & Hd & He).
    destruct (scorer_run _ _ Hs)
      as (a' & b' & c' & d' & e' & q & Hshape' & _ & _ & _ & _ & _ & Hq & Hval).
    rewrite Hshape in Hshape'. inversion Hshape'; subst a' b' c' d' e'.
    exists a, b, c, d, e, q.
    split; [exact Hshape|]. split; [exact Ha|]. split; [exact Hb|].
    split; [exact Hc|]. split; [exact Hd|]. split; [exact He|].
    split; [|exact Hval].
    { unfold calculate_probability. rewrite Hs. simpl bind. rewrite Hq.
      assert (20 <= inject_Z a <= 80) by exact (inject_Z_bounds 20 80 a Ha).
      assert (25 <= inject_Z b <= 75) by exact (inject_Z_bounds 25 75 b Hb).
      assert (25 <= inject_Z c <= 75) by exact (inject_Z_bounds 25 75 c Hc).
      assert (30 <= inject_Z d <= 70) by exact (inject_Z_bounds 30 70 d Hd).
      assert (30 <= inject_Z e <= 70) by exact (inject_Z_bounds 30 70 e He).
      rewrite clamp_inside by lra. reflexivity. } }
  split; [|split].
  - destruct (signals_of_Some _ (recent_window_nonempty df lookback_period Hne Hl))
      as [s Hs].
    destruct (Hgen df s Hs)
      as (a & b & c & d & e & up & -> & Ha & Hb & Hc & Hd & He & Hcalc & Hup).
    exists up, (100 + - up), a, b, c, d, e.
    split; [exact Hcalc|].
    split; [exact Ha|]. split; [exact Hb|]. split; [exact Hc|].
    split; [exact Hd|]. split; [exact He|].
    assert (20 <= inject_Z a <= 80) by exact (inject_Z_bounds 20 80 a Ha).
    assert (25 <= inject_Z b <= 75) by exact (inject_Z_bounds 25 75 b Hb).
    assert (25 <= inject_Z c <= 75) by exact (inject_Z_bounds 25 75 c Hc).
    assert (30 <= inject_Z d <= 70) by exact (inject_Z_bounds 30 70 d Hd).
    assert (30 <= inject_Z e <= 70) by exact (inject_Z_bounds 30 70 e He).
    unfold tolerance. split; [split; lra|split; lra].
  - destruct (calculate_probability bullish_frame 20) as [[[u d] s]|] eqn:E;
      vm_compute in E; [|discriminate E].
    inversion E; subst. do 2 eexists. split; [reflexivity|].
    split; reflexivity.
  - destruct (calculate_probability bearish_frame 20) as [[[u d] s]|] eqn:E;
      vm_compute in E; [|discriminate E].
    inversion E; subst. do 2 eexists. split; [reflexivity|].
    split; reflexivity.
Qed.

Lemma probability_between_25_5_and_74_5_witness :
  (exists up down a b c d e,
     calculate_probability sample_frame 20
     = Some (Fin up, Fin down, five_signals a b c d e) /\
     (20 <= a <= 80)%Z /\ (25 <= b <= 75)%Z /\ (25 <= c <= 75)%Z /\
     (30 <= d <= 70)%Z /\ (30 <= e <= 70)%Z /\
     25.5 - tolerance <= up <= 74.5 + tolerance /\
     25.5 - tolerance <= down <= 74.5 + tolerance) /\
  (exists up down,
     calculate_probability bullish_frame 20
     = Some (Fin up, Fin down, five_signals 80 75 75 70 70) /\
     up == 74.5 /\ down == 25.5) /\
  (exists up down,
     calculate_probability bearish_frame 20
     = Some (Fin up, Fin down, five_signals 20 25 25 30 30) /\
     up == 25.5 /\ down == 74.5).
Proof.
  apply probability_between_25_5_and_74_5; [discriminate|lia].
Defined.

(** ** The OBV trend and the reach of the lookback *)

Lemma obv_signal_self_trend (x p : float64) :
  obv_signal (fsub x x) (fsub p p) = 55%Z.
Proof.
  assert (H : forall y, fgt (fsub y y) (Fin 0) = false /\
                        flt (fsub y y) (Fin 0) = false).
  { intros [| | |q]; simpl; try (split; reflexivity).
    unfold fgt, flt.
    destruct (Qcompare_spec 0 (q + - q)), (Qcompare_spec (q + - q) 0);
      try lra; split; reflexivity. }
  unfold obv_signal. destruct (H x) as [-> ->]. reflexivity.
Qed.

(** X16.  With a window of exactly two bars, [iloc[-min(5, 2-1)]] is the last bar
    itself: both trends are a value minus itself and the OBV sub-score is
    55 for every frame. *)
Theorem two_bar_window_obv_is_55 (df : IndicatorFrame) (lookback_period : Z) :
  length (recent_window df lookback_period) = 2%nat ->
  exists up down signals,
    calculate_probability df lookback_period = Some (up, down, signals) /\
    lookup "OBV" signals = Some 55%Z.
Proof.
  intros Hlen. unfold calculate_probability.
  destruct (recent_window df lookback_period) as [|r1 [|r2 [|r3 w]]];
    try discriminate.
  assert (E : signals_of [r1; r2]
              = Some (five_signals
                        (rsi_signal (RSI r2))
                        (macd_signal (MACD r2) (MACD_Signal r2) (MACD_Hist r2)
                           (MACD_Hist r1))
                        (stoch_signal (Stoch_K r2) (Stoch_D r2))
                        (ma_signal (Close (bar r2)) (MA_5 r2) (MA_20 r2))
                        (obv_signal (fsub (OBV r2) (OBV r2))
                           (fsub (Close (bar r2)) (Close (bar r2))))))
    by reflexivity.
  rewrite E, obv_signal_self_trend. simpl bind.
  do 3 eexists. split; reflexivity.
Qed.

Lemma two_bar_window_obv_is_55_witness :
  exists up down signals,
    calculate_probability sample_frame 2 = Some (up, down, signals) /\
    lookup "OBV" signals = Some 55%Z.
Proof.
  apply two_bar_window_obv_is_55. reflexivity.
Defined.

Lemma tail_map {A B : Type} (f : A -> B) (n : Z) (l : list A) :
  tail n (map f l) = map f (tail n l).
Proof.
  unfold tail. rewrite length_map.
  destruct (n =? 0)%Z; [reflexivity|].
  destruct (0 <? n)%Z; apply skipn_map.
Qed.

(** A position counted from the end is the same in a frame and in a tail
    that is long enough to hold it. *)
Lemma iloc_tail_neg {A : Type} (l : list A) (n i : Z) :
  (- n <= i < 0)%Z -> iloc (tail n l) i = iloc l i.
Proof.
  intros Hi. unfold iloc.
  destruct (Z.leb_spec 0 i); [lia|].
  assert (Hn : (1 <= n)%Z) by lia.
  pose proof (tail_length n l Hn) as Hlen. rewrite Hlen.
  unfold tail.
  destruct (Z.eqb_spec n 0); [lia|]. destruct (Z.ltb_spec 0 n); [|lia].
  destruct (Z.leb_spec (- i) (Z.of_nat (length l))) as [Hk|Hk].
  - destruct (Z.leb_spec (- i)
                (Z.of_nat (Nat.min (length l) (Z.to_nat n)))); [|lia].
    rewrite nth_error_skipn. f_equal. lia.
  - destruct (Z.leb_spec (- i)
                (Z.of_nat (Nat.min (length l) (Z.to_nat n)))); [lia|].
    reflexivity.
Qed.

(** The sub-scores read the last six rows at most. *)
Lemma signals_of_tail6 (w : IndicatorFrame) :
  signals_of (tail 6 w) = signals_of w.
Proof.
  destruct (le_lt_dec (length w) 6) as [Hshort|Hlong].
  - assert (E : tail 6 w = w).
    { unfold tail. simpl.
      now replace (length w - Pos.to_nat 6)%nat with 0%nat by lia. }
    now rewrite E.
  - assert (Hl6 : length (tail 6 w) = 6%nat).
    { rewrite tail_length by lia. lia. }
    assert (Hgt : (1 <? length w)%nat = true) by (apply Nat.ltb_lt; lia).
    assert (Hback : Z.min 5 (Z.of_nat (length w) - 1) = 5%Z) by lia.
    unfold signals_of. rewrite Hl6, Hgt, Hback.
    rewrite <- !tail_map.
    rewrite !(iloc_tail_neg _ 6 (-1)) by lia.
    rewrite !(iloc_tail_neg _ 6 (-2)) by lia.
    change (- Z.min 5 (Z.of_nat 6 - 1))%Z with (-5)%Z.
    change (1 <? 6)%nat with true. cbn iota.
    rewrite !(iloc_tail_neg _ 6 (-5)) by lia.
    reflexivity.
Qed.

Lemma tail6_recent_window (df : IndicatorFrame) (lookback_period : Z) :
  (6 <= lookback_period)%Z ->
  tail 6 (recent_window df lookback_period) = tail 6 df.
Proof.
  intros Hl.
  destruct (Z_le_gt_dec (Z.of_nat (length df)) lookback_period) as [Hs|Hs].
  - now rewrite recent_window_whole.
  - unfold recent_window.
    destruct (Z.ltb_spec (Z.of_nat (length df)) lookback_period); [lia|].
    assert (Hlen : length (tail lookback_period df) = Z.to_nat lookback_period).
    { rewrite tail_length by lia. lia. }
    unfold tail at 1. rewrite Hlen. unfold tail.
    destruct (Z.eqb_spec lookback_period 0); [lia|].
    destruct (Z.ltb_spec 0 lookback_period); [|lia].
    simpl. rewrite skipn_skipn. f_equal. lia.
Qed.

(** X13.  Any two lookbacks of six bars or more give the same score map, and
    probabilities that agree up to rounding (within [tolerance]): the
    sub-scores read the last six rows at most, and the volume weight of the
    longer window cancels but for rounding. *)
Theorem lookback_beyond_six_is_irrelevant (df : IndicatorFrame)
  (lookback1 lookback2 : Z) :
  (6 <= lookback1)%Z -> (6 <= lookback2)%Z ->
  match calculate_probability df lookback1,
        calculate_probability df lookback2 with
  | Some (up1, down1, signals1), Some (up2, down2, signals2) =>
      signals1 = signals2 /\ agree up1 up2 /\ agree down1 down2
  | None, None => True
  | _, _ => False
  end.
Proof.
  intros H1 H2.
  assert (Hsig : signals_of (recent_window df lookback1)
                 = signals_of (recent_window df lookback2)).
  { rewrite <- (signals_of_tail6 (recent_window df lookback1)),
      <- (signals_of_tail6 (recent_window df lookback2)).
    now rewrite !tail6_recent_window. }
  unfold calculate_probability.
  destruct (signals_of (recent_window df lookback1)) as [s|] eqn:Hs1;
    rewrite <- Hsig; simpl bind; [|exact I].
  assert (Hs2 : signals_of (recent_window df lookback2) = Some s)
    by now rewrite <- Hsig.
  destruct (scorer_run _ _ Hs1)
    as (a & b & c & d & e & q1 & -> & _ & _ & _ & _ & _ & -> & Hq1).
  destruct (scorer_run _ _ Hs2)
    as (a' & b' & c' & d' & e' & q2 & Heq & _ & _ & _ & _ & _ & -> & Hq2).
  inversion Heq; subst a' b' c' d' e'.
  assert (Hup : py_max (Fin 0) (py_min (Fin 100) (Fin q1))
                =f= py_max (Fin 0) (py_min (Fin 100) (Fin q2))).
  { apply clamp_feq. simpl. rewrite Hq1, Hq2. reflexivity. }
  destruct (clamp_range (Fin q1)) as [u1 [Eu1 _]].
  destruct (clamp_range (Fin q2)) as [u2 [Eu2 _]].
  rewrite Eu1, Eu2 in *. simpl in Hup.
  split; [reflexivity|]. split.
  - exists u1, u2. split; [reflexivity|]. split; [reflexivity|].
    unfold tolerance. split; lra.
  - exists (100 + - u1), (100 + - u2).
    split; [reflexivity|]. split; [reflexivity|].
    unfold tolerance. split; lra.
Qed.

Lemma lookback_beyond_six_is_irrelevant_witness :
  length (recent_window eight_rows 6) = 6%nat /\
  length (recent_window eight_rows 8) = 8%nat /\
  ~ np_mean (volume_weights_of (recent_window eight_rows 6))
    =f= np_mean (volume_weights_of (recent_window eight_rows 8)) /\
  match calculate_probability eight_rows 6,
        calculate_probability eight_rows 8 with
  | Some (up1, down1, signals1), Some (up2, down2, signals2) =>
      signals1 = signals2 /\ agree up1 up2 /\ agree down1 down2
  | None, None => True
  | _, _ => False
  end.
Proof.
  split; [reflexivity|]. split; [reflexivity|].
  split; [vm_compute; discriminate|].
  apply (lookback_beyond_six_is_irrelevant eight_rows 6 8); lia.
Defined.

(** ** Shape of the sub-scores *)

Ltac qcases :=
  repeat (match goal with
          | |- context [?a ?= ?b] => destruct (Qcompare_spec a b)
          end; cbn [andb]; try lra).

(** X18.  A higher RSI never gets a higher sub-score. *)
Theorem rsi_signal_antitone (a b : Q) :
  a <= b -> (rsi_signal (Fin b) <= rsi_signal (Fin a))%Z.
Proof.
  intros Hab. unfold rsi_signal, flt. cbn [notna].
  qcases; lia.
Qed.

Lemma rsi_signal_antitone_witness :
  (rsi_signal (Fin 65) <= rsi_signal (Fin 35))%Z.
Proof.
  apply rsi_signal_antitone. lra.
Defined.

(** X19.  The MACD, stochastic and moving-average sub-scores treat up and down
    alike: mirroring the inputs (swapping the MACD line with its signal and
    the two histogram values, reflecting %K and %D at 50, negating the
    price and the averages) turns a score [s] into [100 - s]. *)
Theorem subscores_mirror (a b h p k d price ma5 ma20 : Q) :
  (macd_signal (Fin b) (Fin a) (Fin p) (Fin h)
   = 100 - macd_signal (Fin a) (Fin b) (Fin h) (Fin p))%Z /\
  (stoch_signal (Fin (100 - k)) (Fin (100 - d))
   = 100 - stoch_signal (Fin k) (Fin d))%Z /\
  (ma_signal (Fin (- price)) (Fin (- ma5)) (Fin (- ma20))
   = 100 - ma_signal (Fin price) (Fin ma5) (Fin ma20))%Z.
Proof.
  split; [|split].
  - unfold macd_signal, fgt, flt. cbn [notna andb].
    qcases; reflexivity.
  - unfold stoch_signal, fgt, flt. cbn [notna andb].
    qcases; reflexivity.
  - unfold ma_signal, fgt, flt. cbn [notna andb].
    qcases; reflexivity.
Qed.

(** * Summary figures *)

Lemma iloc_last {A : Type} (l : list A) (x : A) :
  iloc (l ++ [x]) (-1) = Some x.
Proof.
  unfold iloc. cbn [Z.leb Z.compare Z.opp]. rewrite length_app. cbn [length].
  destruct (Z.leb_spec 1 (Z.of_nat (length l + 1))); [|lia].
  rewrite nth_error_app2 by lia.
  now replace (length l + 1 - Z.to_nat 1 - length l)%nat with 0%nat by lia.
Qed.

Lemma iloc_before_last {A : Type} (l : list A) (y x : A) :
  iloc (l ++ [y; x]) (-2) = Some y.
Proof.
  unfold iloc. cbn [Z.leb Z.compare Z.opp]. rewrite length_app. cbn [length].
  destruct (Z.leb_spec 2 (Z.of_nat (length l + 2))); [|lia].
  rewrite nth_error_app2 by lia.
  now replace (length l + 2 - Z.to_nat 2 - length l)%nat with 0%nat by lia.
Qed.

(** X20.  The headline price change.  An empty series raises; one bar gives a
    change and a percentage of 0.  On two or more finite closes neither
    figure is missing; the change has the sign of the move; the percentage
    is 0 when the previous close is 0 (the guard) or when the price did not
    move; and for a positive previous close the percentage is negative only
    if the price fell and positive only if it rose. *)
Theorem price_change_is_guarded (front : list Q) (prev last : Q) :
  price_change_of [] = None /\
  (exists ch pct,
     price_change_of [Fin last] = Some (Fin ch, Fin pct) /\
     ch == 0 /\ pct == 0) /\
  (exists ch pct,
     price_change_of (map Fin (front ++ [prev; last])) = Some (ch, pct) /\
     notna ch = true /\ notna pct = true /\
     (prev < last -> fgt ch (Fin 0) = true) /\
     (last < prev -> flt ch (Fin 0) = true) /\
     (last == prev -> ch =f= Fin 0 /\ pct =f= Fin 0) /\
     (prev == 0 -> pct =f= Fin 0) /\
     (0 < prev ->
      (flt pct (Fin 0) = true -> last < prev) /\
      (fgt pct (Fin 0) = true -> prev < last))).
Proof.
  split; [reflexivity|]. split.
  - assert (E : price_change_of [Fin last]
                = Some (Fin (last + - last),
                        if fne (Fin last) (Fin 0)
                        then fmul (fdiv (Fin (last + - last)) (Fin last))
                               (Fin 100)
                        else Fin 0)) by reflexivity.
    rewrite E. cbn [fne].
    destruct (Qcompare_spec last 0) as [H|H|H].
    + do 2 eexists. split; [reflexivity|]. split; [lra|reflexivity].
    + cbn [fdiv]. destruct (Qcompare_spec last 0); try lra.
      cbn [fmul]. do 2 eexists. split; [reflexivity|]. split; [lra|].
      field. lra.
    + cbn [fdiv]. destruct (Qcompare_spec last 0); try lra.
      cbn [fmul]. do 2 eexists. split; [reflexivity|]. split; [lra|].
      field. lra.
  - unfold price_change_of.
    assert (E1 : iloc (map Fin (front ++ [prev; last])) (-1) = Some (Fin last)).
    { rewrite map_app.
      change (map Fin [prev; last]) with ([Fin prev] ++ [Fin last]).
      rewrite app_assoc. apply iloc_last. }
    assert (E2 : iloc (map Fin (front ++ [prev; last])) (-2) = Some (Fin prev)).
    { rewrite map_app. apply iloc_before_last. }
    assert (E3 : (1 <? length (map Fin (front ++ [prev; last])))%nat = true).
    { apply Nat.ltb_lt. rewrite length_map, length_app. simpl. lia. }
    rewrite E1, E3, E2. cbn [bind fsub fneg fadd fne].
    assert (Hch : (prev < last -> fgt (Fin (last + - prev)) (Fin 0) = true) /\
                  (last < prev -> flt (Fin (last + - prev)) (Fin 0) = true)).
    { unfold fgt, flt. split; intros Hx.
      - destruct (Qcompare_spec 0 (last + - prev)); try reflexivity; lra.
      - destruct (Qcompare_spec (last + - prev) 0); try reflexivity; lra. }
    destruct Hch as [Hup Hdown].
    destruct (Qcompare_spec prev 0) as [H|H|H].
    + do 2 eexists. split; [reflexivity|].
      split; [reflexivity|]. split; [reflexivity|].
      split; [exact Hup|]. split; [exact Hdown|].
      split; [intros Hx; split; simpl; [lra|reflexivity]|].
      split; [intros _; reflexivity|intros Hx; lra].
    + cbn [fdiv]. destruct (Qcompare_spec prev 0); try lra.
      cbn [fmul]. do 2 eexists. split; [reflexivity|].
      split; [reflexivity|]. split; [reflexivity|].
      split; [exact Hup|]. split; [exact Hdown|].
      split; [intros Hx; split; simpl; [lra|]|].
      { assert (Hz : last + - prev == 0) by lra. rewrite Hz. field. lra. }
      split; [intros Hx; lra|intros Hx; lra].
    + cbn [fdiv]. destruct (Qcompare_spec prev 0); try lra.
      cbn [fmul]. do 2 eexists. split; [reflexivity|].
      split; [reflexivity|]. split; [reflexivity|].
      split; [exact Hup|]. split; [exact Hdown|].
      split; [intros Hx; split; simpl; [lra|]|].
      { assert (Hz : last + - prev == 0) by lra. rewrite Hz. field. lra. }
      split; [intros Hx; lra|]. intros _.
      assert (Hd : ((last + - prev) / prev < 0 <-> last < prev) /\
                   (0 < (last + - prev) / prev <-> prev < last)).
      { split; split; intros Hx.
        - destruct (Qlt_le_dec last prev) as [|Hge]; [assumption|].
          assert (0 <= (last + - prev) / prev)
            by (apply Qle_shift_div_l; lra). lra.
        - apply Qlt_shift_div_r; lra.
        - destruct (Qlt_le_dec prev last) as [|Hge]; [assumption|].
          assert ((last + - prev) / prev <= 0)
            by (apply Qle_shift_div_r; lra). lra.
        - apply Qlt_shift_div_l; lra. }
      destruct Hd as [Hneg Hpos].
      unfold fgt, flt. split; intros Hx.
      * destruct (Qcompare_spec ((last + - prev) / prev * 100) 0);
          try discriminate Hx. apply Hneg. lra.
      * destruct (Qcompare_spec 0 ((last + - prev) / prev * 100));
          try discriminate Hx. apply Hpos. lra.
Qed.

(** ** Daily and cumulative return *)








(** ** A window of one bar, and the range of the EMAs *)

Lemma fgt_irrefl (x : float64) : fgt x x = false.
Proof.
  destruct x as [| | |q]; try reflexivity.
  unfold fgt, flt. now rewrite Qcompare_refl.
Qed.

(** X17.  With a window of a single bar there is no previous histogram and no
    trend: the MACD sub-score is 40, 50 or 60 (never the strong 25 or 75)
    and the OBV sub-score is 50. *)
Theorem single_bar_window_scores (df : IndicatorFrame) (lookback_period : Z) :
  length (recent_window df lookback_period) = 1%nat ->
  exists up down signals macd_score,
    calculate_probability df lookback_period = Some (up, down, signals) /\
    lookup "MACD" signals = Some macd_score /\
    In macd_score [40; 50; 60]%Z /\
    lookup "OBV" signals = Some 50%Z.
Proof.
  intros Hlen. unfold calculate_probability.
  destruct (recent_window df lookback_period) as [|r [|r2 w]];
    try discriminate.
  assert (E : signals_of [r]
              = Some (five_signals
                        (rsi_signal (RSI r))
                        (macd_signal (MACD r) (MACD_Signal r) (MACD_Hist r)
                           (MACD_Hist r))
                        (stoch_signal (Stoch_K r) (Stoch_D r))
                        (ma_signal (Close (bar r)) (MA_5 r) (MA_20 r))
                        50)) by reflexivity.
  rewrite E. simpl bind. do 4 eexists.
  split; [reflexivity|]. split; [reflexivity|]. split; [|reflexivity].
  unfold macd_signal.
  rewrite fgt_irrefl, (fgt_irrefl (MACD_Hist r) : flt _ _ = false),
    !andb_false_r.
  repeat match goal with |- context [if ?c then _ else _] => destruct c end;
    simpl; tauto.
Qed.

Lemma single_bar_window_scores_witness :
  exists up down signals macd_score,
    calculate_probability sample_frame 1 = Some (up, down, signals) /\
    lookup "MACD" signals = Some macd_score /\
    In macd_score [40; 50; 60]%Z /\
    lookup "OBV" signals = Some 50%Z.
Proof.
  apply single_bar_window_scores. reflexivity.
Defined.

Lemma ewm_alpha_unit (span : Z) :
  (1 <= span)%Z -> 0 < ewm_alpha span /\ ewm_alpha span <= 1.
Proof.
  intros H. rewrite (ewm_alpha_span span H).
  assert (Hs : 1 <= inject_Z span).
  { change 1 with (inject_Z 1). now rewrite <- Zle_Qle. }
  split.
  - apply Qlt_shift_div_l; lra.
  - apply Qle_shift_div_r; lra.
Qed.

Lemma convex_step (alpha lo hi q e e' : Q) :
  0 < alpha -> alpha <= 1 -> lo <= q <= hi -> lo <= e <= hi ->
  e' == alpha * q + (1 - alpha) * e -> lo <= e' <= hi.
Proof.
  intros Ha0 Ha1 [Hq1 Hq2] [He1 He2] He'.
  assert (H1 : 0 <= alpha * (q - lo)) by (apply Qmult_le_0_compat; lra).
  assert (H2 : 0 <= (1 - alpha) * (e - lo)) by (apply Qmult_le_0_compat; lra).
  assert (H3 : 0 <= alpha * (hi - q)) by (apply Qmult_le_0_compat; lra).
  assert (H4 : 0 <= (1 - alpha) * (hi - e)) by (apply Qmult_le_0_compat; lra).
  split; lra.
Qed.

Lemma ema_from_bounds (alpha lo hi : Q) (qs : list Q) :
  0 < alpha -> alpha <= 1 ->
  Forall (fun q => lo <= q <= hi) qs ->
  forall e es,
    lo <= e <= hi -> ema_from alpha e qs es ->
    Forall (fun x => lo <= x <= hi) es.
Proof.
  intros Ha0 Ha1. induction 1 as [|q r Hq _ IH]; intros e es He Hrec.
  - destruct es; [constructor|contradiction].
  - destruct es as [|e' es]; [contradiction|]. destruct Hrec as [He' Hrec].
    assert (Hb : lo <= e' <= hi)
      by exact (convex_step alpha lo hi q e e' Ha0 Ha1 Hq He He').
    constructor; [exact Hb|]. apply (IH e' es Hb Hrec).
Qed.

(** X8.  An EMA never leaves the range of the prices: for finite prices between
    [lo] and [hi] and a span of at least 1, every value of
    [ewm(span, adjust=False).mean()] lies between [lo] and [hi]. *)
Theorem ema_stays_in_price_range (span : Z) (lo hi : Q) (qs : list Q) :
  (1 <= span)%Z ->
  Forall (fun q => lo <= q <= hi) qs ->
  exists es,
    ewm_mean span (map Fin qs) = map Fin es /\
    length es = length qs /\
    Forall (fun e => lo <= e <= hi) es.
Proof.
  intros Hspan Hall. destruct qs as [|q0 r].
  - exists []. repeat split. constructor.
  - inversion Hall as [|? ? H0 Hr]; subst.
    destruct (ewm_alpha_unit span Hspan) as [Ha0 Ha1].
    destruct (ewm_scan_finite (ewm_com span) (ewm_alpha span) (ewm_alpha span) r
                (Qeq_refl _) q0 1 (le_n 1)) as (es & Hes & Hrec).
    exists (q0 :: es). split; [|split].
    + rewrite ewm_mean_finite. cbn [map ewm_pass notna]. rewrite Hes.
      reflexivity.
    + simpl. f_equal. eapply ema_from_length, Hrec.
    + constructor; [exact H0|].
      eapply ema_from_bounds; eauto.
Qed.

Lemma ema_stays_in_price_range_witness :
  exists es,
    ewm_mean 3 (map Fin [10; 12; 14; 16; 18]) = map Fin es /\
    length es = length [10; 12; 14; 16; 18] /\
    Forall (fun e => 10 <= e <= 18) es.
Proof.
  apply (ema_stays_in_price_range 3 10 18 [10; 12; 14; 16; 18]); [lia|].
  repeat (apply Forall_cons; [split; discriminate|]). apply Forall_nil.
Defined.
